(** * BFV engine of [complete_fhe_package]: a shallow embedding

    The development follows the Python sources:
    - [custom_fhe/polynomial.py]  : [PolynomialRing], [DiscreteGaussian]
    - [custom_fhe/bfv_scheme.py]  : [BFVScheme]
    - [bfv_accelerated.py]        : [BFVSchemeAccelerated._find_ntt_prime]
    - [example_accelerated.py]    : [FastFHE_Custom]
    - [example_range_search.py]   : [string_to_ints], [ints_to_string]

    Conventions.
    - A numpy [int64] array is a [list Z]; arithmetic between two [int64]
      arrays wraps around ([wrap64]); arrays of dtype [object] hold Python
      integers and never wrap.
    - The Python integer [self.q] that meets an [int64] array in [add], [sub]
      and [neg] is converted to [int64]; the conversion raises
      [OverflowError] when it does not fit (NumPy 2).
    - A Python exception is a value of [exn]; a computation that may raise
      returns a [result].
    - The samplers draw from [np.random]; every function that samples takes
      the drawn arrays as explicit arguments.
    - [int(n ** 0.5)] goes through a float: it raises [OverflowError] outside
      the float range, and inside it the rounded root is an input of the
      model ([fsqrt]). *)

From Stdlib Require Import ZArith Znumtheory Lia.
From Stdlib Require Import Zmod.ZmodInv.
From stdpp Require Import base list strings gmap.

Local Open Scope Z_scope.

(** ** Python exceptions and results *)

Inductive exn : Type :=
  | ValueError (msg : string)
  | IndexError
  | KeyError
  | OverflowError
  | AttributeError
  | ZeroDivisionError
  | TypeError.

Inductive result (A : Type) : Type :=
  | Ok (a : A)
  | Raise (e : exn).
Arguments Ok {A} a.
Arguments Raise {A} e.

Definition rbind {A B} (m : result A) (k : A → result B) : result B :=
  match m with
  | Ok a => k a
  | Raise e => Raise e
  end.

Notation "'let*' x := m 'in' k" := (rbind m (fun x => k))
  (at level 10, x pattern, m at level 100, k at level 200).

Fixpoint rmap {A B} (f : A → result B) (l : list A) : result (list B) :=
  match l with
  | [] => Ok []
  | x :: l' => let* y := f x in let* ys := rmap f l' in Ok (y :: ys)
  end.

(** ** Machine integers and numpy element operations *)

(** Two's-complement reduction of an integer to a signed 64-bit word. *)
Definition wrap64 (z : Z) : Z := (z + 2 ^ 63) mod 2 ^ 64 - 2 ^ 63.

Definition in_int64 (z : Z) : Prop := - 2 ^ 63 <= z < 2 ^ 63.

(** [x.astype(np.int64)] on one Python integer of an [object] array: the
    conversion raises [OverflowError] outside the signed 64-bit range. *)
Definition astype_int64 (z : Z) : result Z :=
  if (- 2 ^ 63 <=? z) && (z <? 2 ^ 63) then Ok z else Raise OverflowError.

(** [x % d] and [x // d] between [int64] values: numpy yields 0 (and a
    warning) for a zero divisor. *)
Definition np_mod (x d : Z) : Z := if d =? 0 then 0 else x mod d.
Definition np_floordiv (x d : Z) : Z := if d =? 0 then 0 else x / d.

(** [x % d] and [x // d] between Python integers. *)
Definition py_mod (x d : Z) : result Z :=
  if d =? 0 then Raise ZeroDivisionError else Ok (x mod d).
Definition py_floordiv (x d : Z) : result Z :=
  if d =? 0 then Raise ZeroDivisionError else Ok (x / d).

(** A binary elementwise operation on two one-dimensional arrays, with numpy's
    broadcasting rule: equal lengths, or one operand of length 1. *)
Definition broadcast2 (f : Z → Z → Z) (a b : list Z) : result (list Z) :=
  if decide (length a = length b) then Ok (zip_with f a b)
  else if decide (length a = 1%nat) then Ok (map (f (hd 0 a)) b)
  else if decide (length b = 1%nat) then Ok (map (fun x => f x (hd 0 b)) a)
  else Raise (ValueError "operands could not be broadcast together").

(** [sum_{i < n} f i]. *)
Fixpoint zsum (n : nat) (f : nat → Z) : Z :=
  match n with
  | O => 0
  | S n' => zsum n' f + f n'
  end.

(** ** [np.convolve] and the negacyclic fold *)

(** Coefficient [k] of the full linear convolution,
    [sum_{i <= k} a[i] * b[k - i]], indices out of range contributing 0. *)
Definition conv_coeff (a b : list Z) (k : nat) : Z :=
  zsum (S k) (fun i => nth i a 0 * nth (k - i) b 0).

(** [np.convolve(a, v)] (mode ['full']) on arrays of dtype [object]: numpy
    first swaps the operands when [v] is the longer one, then rejects empty
    arrays. *)
Definition convolve (a v : list Z) : result (list Z) :=
  let '(a, v) := if decide (length a < length v)%nat then (v, a) else (a, v) in
  if decide (length a = 0%nat) then Raise (ValueError "a cannot be empty")
  else if decide (length v = 0%nat) then Raise (ValueError "v cannot be empty")
  else Ok (map (conv_coeff a v) (seq 0 (length a + length v - 1))).

(** One iteration of
<<
    for i in range(len(conv)):
        if i < self.N: result[i] += conv[i]
        else:          result[i - self.N] -= conv[i]
>>
    An index [i - N >= N] is out of range for [result] and raises. *)
Definition fold_step (N : nat) (acc : result (list Z)) (ic : nat * Z)
  : result (list Z) :=
  let* res := acc in
  let '(i, c) := ic in
  if decide (i < N)%nat then Ok (alter (fun x => x + c) i res)
  else if decide (i - N < N)%nat then Ok (alter (fun x => x - c) (i - N)%nat res)
  else Raise IndexError.

Definition negacyclic (N : nat) (conv : list Z) : result (list Z) :=
  fold_left (fold_step N) (zip (seq 0 (length conv)) conv) (Ok (replicate N 0)).

(** ** [PolynomialRing] *)

Record PolynomialRing : Type := mkRing { ring_N : nat; ring_q : Z }.

(** [PolynomialRing.__init__]: [N & (N - 1) != 0] rejects the degree. *)
Definition PolynomialRing_init (N : nat) (q : Z) : result PolynomialRing :=
  if Z.land (Z.of_nat N) (Z.of_nat N - 1) =? 0 then Ok (mkRing N q)
  else Raise (ValueError "N must be a power of 2").

Module Ring.

(** [x % self.q] for an [int64] array [x]: the Python integer [self.q] is
    converted to [int64] to meet the array, and the conversion raises
    [OverflowError] when it does not fit (NumPy 2). *)
Definition mod_q (R : PolynomialRing) (x : list Z) : result (list Z) :=
  let* q := astype_int64 (ring_q R) in
  Ok (map (fun v => np_mod v q) x).

(** [(a + b) % self.q] *)
Definition add (R : PolynomialRing) (a b : list Z) : result (list Z) :=
  let* s := broadcast2 (fun x y => wrap64 (x + y)) a b in
  mod_q R s.

(** [(a - b) % self.q] *)
Definition sub (R : PolynomialRing) (a b : list Z) : result (list Z) :=
  let* d := broadcast2 (fun x y => wrap64 (x - y)) a b in
  mod_q R d.

(** [(-a) % self.q] *)
Definition neg (R : PolynomialRing) (a : list Z) : result (list Z) :=
  mod_q R (map (fun x => wrap64 (- x)) a).

(** [((a.astype(object) * scalar) % self.q).astype(np.int64)] *)
Definition mul_scalar (R : PolynomialRing) (a : list Z) (scalar : Z)
  : result (list Z) :=
  let* r := rmap (fun x => py_mod (x * scalar) (ring_q R)) a in
  rmap astype_int64 r.

(** [np.convolve], negacyclic fold, [% self.q], [astype(np.int64)]. *)
Definition mul (R : PolynomialRing) (a b : list Z) : result (list Z) :=
  let* conv := convolve a b in
  let* res := negacyclic (ring_N R) conv in
  let* r := rmap (fun x => py_mod x (ring_q R)) res in
  rmap astype_int64 r.

(** [result[mask] -= self.q] where [mask = result > self.q // 2]. *)
Definition mod_center (R : PolynomialRing) (a : list Z) : list Z :=
  let half_q := ring_q R / 2 in
  map (fun x => if half_q <? x then wrap64 (x - ring_q R) else x) a.

End Ring.

(** [np.clip(samples, -bound, bound)], the tail of
    [DiscreteGaussian.sample_bounded]; [samples] is the rounded draw. *)
Definition clip (lo hi x : Z) : Z := Z.min (Z.max x lo) hi.

Definition sample_bounded (samples : list Z) (bound : Z) : list Z :=
  map (clip (- bound) bound) samples.

(** ** Keys, plaintexts and ciphertexts *)

(** Modelled from the spec: the classes [PublicKey], [SecretKey],
    [RelinearizationKey] ([custom_fhe/keys.py]) and [Ciphertext], [Plaintext]
    ([custom_fhe/ciphertext.py]) are imported by the engine but their files
    are absent.  The data model gives a secret key as one polynomial, a public
    key as the pair (b, a), a relinearization key as a list of such pairs, a
    plaintext as one polynomial and a ciphertext as an ordered tuple of 2 or 3
    polynomials with its parameters; [size] is the number of components, and
    [get_components] / [get_poly] / [get_polynomial] return what the
    constructor stored. *)
Definition Params : Type := gmap string Z.

Record Plaintext : Type := mkPlaintext { pt_poly : list Z; pt_params : Params }.

Record Ciphertext : Type :=
  mkCiphertext { components : list (list Z); ct_params : Params }.

Definition size (ct : Ciphertext) : nat := length (components ct).

Definition PublicKey : Type := (list Z * list Z)%type.
Definition SecretKey : Type := list Z.
Definition RelinearizationKey : Type := list (list Z * list Z).

(** [x, y = seq]: unpacking raises [ValueError] unless [seq] has exactly two
    elements; likewise for three. *)
Definition unpack2 {A} (l : list A) : result (A * A) :=
  match l with
  | [x; y] => Ok (x, y)
  | _ :: _ :: _ :: _ => Raise (ValueError "too many values to unpack")
  | _ => Raise (ValueError "not enough values to unpack")
  end.

Definition unpack3 {A} (l : list A) : result (A * A * A) :=
  match l with
  | [x; y; z] => Ok (x, y, z)
  | _ :: _ :: _ :: _ :: _ => Raise (ValueError "too many values to unpack")
  | _ => Raise (ValueError "not enough values to unpack")
  end.

(** ** [BFVScheme] *)

(** The attributes of a [BFVScheme] instance.  [sigma] is a float used only
    through [int(self.sigma)], kept here as [int_sigma]. *)
Record BFVScheme : Type := mkScheme {
  N : nat;
  t : Z;
  q : Z;
  int_sigma : Z;
  poly_ring : PolynomialRing;
  delta : Z;
  T : Z;
  secret_key : option SecretKey;
  public_key : option PublicKey;
  relin_key : option RelinearizationKey;
  n_slots : nat
}.

Definition set_keys (E : BFVScheme) (sk : SecretKey) (pk : PublicKey) : BFVScheme :=
  mkScheme (N E) (t E) (q E) (int_sigma E) (poly_ring E) (delta E) (T E)
           (Some sk) (Some pk) (relin_key E) (n_slots E).

Definition set_relin_key (E : BFVScheme) (rk : RelinearizationKey) : BFVScheme :=
  mkScheme (N E) (t E) (q E) (int_sigma E) (poly_ring E) (delta E) (T E)
           (secret_key E) (public_key E) (Some rk) (n_slots E).

(** The dictionary [{'N': self.N, 't': self.t, 'q': self.q}]. *)
Definition scheme_params (E : BFVScheme) : Params :=
  <["N" := Z.of_nat (N E)]> (<["t" := t E]> (<["q" := q E]> ∅)).

(** [bound = 6 * int(self.sigma)] *)
Definition noise_bound (E : BFVScheme) : Z := 6 * int_sigma E.

(** [BFVScheme.__init__(N, t, q_bits, sigma)] *)
Definition BFVScheme_init (N : nat) (t q_bits int_sigma : Z) : result BFVScheme :=
  if q_bits <? 0 then Raise (ValueError "negative shift count") else
  let q := Z.shiftl 1 q_bits - 1 in
  let* ring := PolynomialRing_init N q in
  let* delta := py_floordiv q t in
  let T := Z.shiftl 1 (q_bits / 2) in
  Ok (mkScheme N t q int_sigma ring delta T None None None (N / 2)%nat).

Module BFV.

(** [key_generation]: [s] is the ternary draw, [a] the uniform draw and
    [g] the rounded Gaussian draw. *)
Definition key_generation (E : BFVScheme) (s a g : list Z)
  : result (BFVScheme * SecretKey * PublicKey) :=
  let e := sample_bounded g (noise_bound E) in
  let* a_s := Ring.mul (poly_ring E) a s in
  let* a_s_e := Ring.add (poly_ring E) a_s e in
  let* b := Ring.neg (poly_ring E) a_s_e in
  Ok (set_keys E s (b, a), s, (b, a)).

(** [_encrypt_poly_internal] *)
Definition encrypt_poly_internal (E : BFVScheme) (poly_msg a g : list Z)
  : result (list Z * list Z) :=
  match secret_key E with
  | None => Raise AttributeError
  | Some s =>
      let e := sample_bounded g (noise_bound E) in
      let* a_s := Ring.mul (poly_ring E) a s in
      let* noise := Ring.add (poly_ring E) a_s e in
      let* minus_noise := Ring.neg (poly_ring E) noise in
      let* b := Ring.add (poly_ring E) minus_noise poly_msg in
      Ok (b, a)
  end.

(** [generate_relin_key]: [(a0, g0)] and [(a1, g1)] are the draws of the
    two internal encryptions. *)
Definition generate_relin_key (E : BFVScheme) (a0 g0 a1 g1 : list Z)
  : result (BFVScheme * RelinearizationKey) :=
  match secret_key E with
  | None => Raise (ValueError "Keys not generated")
  | Some s =>
      let* s_squared := Ring.mul (poly_ring E) s s in
      let* k0 := encrypt_poly_internal E s_squared a0 g0 in
      let* s_squared_T := Ring.mul_scalar (poly_ring E) s_squared (T E) in
      let* k1 := encrypt_poly_internal E s_squared_T a1 g1 in
      Ok (set_relin_key E [k0; k1], [k0; k1])
  end.

(** [encrypt]: [u] is the ternary draw, [g1] and [g2] the rounded Gaussian
    draws. *)
Definition encrypt (E : BFVScheme) (plaintext : Plaintext) (u g1 g2 : list Z)
  : result Ciphertext :=
  match public_key E with
  | None => Raise (ValueError "No Public Key")
  | Some (pk0, pk1) =>
      let m := pt_poly plaintext in
      let e1 := sample_bounded g1 (noise_bound E) in
      let e2 := sample_bounded g2 (noise_bound E) in
      let* pk0_u := Ring.mul (poly_ring E) pk0 u in
      let* c0 := Ring.add (poly_ring E) pk0_u e1 in
      let* dm := Ring.mul_scalar (poly_ring E) m (delta E) in
      let* c0 := Ring.add (poly_ring E) c0 dm in
      let* pk1_u := Ring.mul (poly_ring E) pk1 u in
      let* c1 := Ring.add (poly_ring E) pk1_u e2 in
      Ok (mkCiphertext [c0; c1] (scheme_params E))
  end.

(** [(noisy_obj * self.t + (self.q // 2)) // self.q] on one coefficient. *)
Definition scale (E : BFVScheme) (v : Z) : result Z :=
  py_floordiv (v * t E + q E / 2) (q E).

(** [decrypt]: only [components[:2]] is read. *)
Definition decrypt (E : BFVScheme) (ciphertext : Ciphertext) : result Plaintext :=
  match secret_key E with
  | None => Raise (ValueError "No Secret Key")
  | Some s =>
      let* (c0, c1) := unpack2 (take 2 (components ciphertext)) in
      let* c1_s := Ring.mul (poly_ring E) c1 s in
      let* noisy_m := Ring.add (poly_ring E) c0 c1_s in
      let* scaled := rmap (scale E) noisy_m in
      let* scaled64 := rmap astype_int64 scaled in
      let m := map (fun x => np_mod x (t E)) scaled64 in
      Ok (mkPlaintext m (scheme_params E))
  end.

(** The local function [mul_scale] of [multiply]. *)
Definition mul_scale (E : BFVScheme) (p1 p2 : list Z) : result (list Z) :=
  let* conv := convolve p1 p2 in
  let* res := negacyclic (N E) conv in
  let* val := rmap (fun x => py_floordiv (x * t E + q E / 2) (q E)) res in
  let* r := rmap (fun x => py_mod x (q E)) val in
  rmap astype_int64 r.

(** [multiply] *)
Definition multiply (E : BFVScheme) (ct1 ct2 : Ciphertext) : result Ciphertext :=
  let* (c1_0, c1_1) := unpack2 (components ct1) in
  let* (c2_0, c2_1) := unpack2 (components ct2) in
  let* d0 := mul_scale E c1_0 c2_0 in
  let* x := mul_scale E c1_0 c2_1 in
  let* y := mul_scale E c1_1 c2_0 in
  let* d1 := Ring.add (poly_ring E) x y in
  let* d2 := mul_scale E c1_1 c2_1 in
  Ok (mkCiphertext [d0; d1; d2] (ct_params ct1)).

(** [relinearize] *)
Definition relinearize (E : BFVScheme) (ciphertext : Ciphertext)
  : result Ciphertext :=
  if decide (size ciphertext ≠ 3%nat) then Ok ciphertext else
  let* (d0, d1, d2) := unpack3 (components ciphertext) in
  match relin_key E with
  | None => Raise AttributeError
  | Some keys =>
      let d2_0 := map (fun x => np_mod x (T E)) d2 in
      let d2_1 := map (fun x => np_floordiv x (T E)) d2 in
      match keys !! 0%nat, keys !! 1%nat with
      | Some (k0_b, k0_a), Some (k1_b, k1_a) =>
          let* term0_0 := Ring.mul (poly_ring E) d2_0 k0_b in
          let* term0_1 := Ring.mul (poly_ring E) d2_1 k1_b in
          let* s0 := Ring.add (poly_ring E) term0_0 term0_1 in
          let* new_c0 := Ring.add (poly_ring E) d0 s0 in
          let* term1_0 := Ring.mul (poly_ring E) d2_0 k0_a in
          let* term1_1 := Ring.mul (poly_ring E) d2_1 k1_a in
          let* s1 := Ring.add (poly_ring E) term1_0 term1_1 in
          let* new_c1 := Ring.add (poly_ring E) d1 s1 in
          Ok (mkCiphertext [new_c0; new_c1] (ct_params ciphertext))
      | _, _ => Raise IndexError
      end
  end.

(** [encode]: [values] is the list of integers (a single integer is
    wrapped in a list by the caller). *)
Definition encode (E : BFVScheme) (values : list Z) : result Plaintext :=
  let* vals := rmap astype_int64 values in
  let count := Nat.min (length vals) (N E) in
  let head := map (fun v => np_mod v (t E)) (take count vals) in
  Ok (mkPlaintext (head ++ replicate (N E - count) 0) (<["N" := Z.of_nat (N E)]> ∅)).

(** [decode]: [int(self.poly_ring.mod_center(pt.get_poly())[0] % self.t)] *)
Definition decode (E : BFVScheme) (pt : Plaintext) : result Z :=
  match Ring.mod_center (poly_ring E) (pt_poly pt) with
  | [] => Raise IndexError
  | x :: _ => Ok (np_mod x (t E))
  end.

End BFV.

(** [FastFHE_Custom.homomorphic_sub] ([example_accelerated.py]); [E] is the
    engine [self.HE]. *)
Definition homomorphic_sub (E : BFVScheme) (ct1 ct2 : Ciphertext) : result Ciphertext :=
  let* (c1_0, c1_1) := unpack2 (components ct1) in
  let* (c2_0, c2_1) := unpack2 (components ct2) in
  let* d0 := Ring.sub (poly_ring E) c1_0 c2_0 in
  let* d1 := Ring.sub (poly_ring E) c1_1 c2_1 in
  Ok (mkCiphertext [d0; d1] (ct_params ct1)).

(** ** [BFVSchemeAccelerated]: the NTT-friendly modulus *)

(** [range(start, stop, 2)] *)
Definition range_step2 (start stop : Z) : list Z :=
  map (fun k => start + 2 * Z.of_nat k) (seq 0 (Z.to_nat ((stop - start + 1) / 2))).

(** The first integer that Python cannot convert to a float: [float(n)]
    raises [OverflowError] from [2^1024 - 2^970] on. *)
Definition float_overflow : Z := 2 ^ 1024 - 2 ^ 970.

Section FloatRoot.

(** The value of [int(n ** 0.5)] for [0 <= n] inside the float range.  The
    power is computed in double precision, and its last bit depends on the
    platform's [pow]; the rounded root is therefore an input of the model,
    and every theorem states what it needs of it. *)
Variable fsqrt : Z → Z.

(** [int(n ** 0.5)]: the conversion of [n] to a float raises [OverflowError]
    outside the float range, and a negative [n] gives a complex power, which
    [int] rejects with [TypeError]. *)
Definition int_root (n : Z) : result Z :=
  if (float_overflow <=? n) || (n <=? - float_overflow) then Raise OverflowError
  else if n <? 0 then Raise TypeError
  else Ok (fsqrt n).

(** The local function [is_prime] of [_find_ntt_prime]. *)
Definition is_prime (n : Z) : result bool :=
  if n mod 2 =? 0 then Ok false
  else
    let* r := int_root n in
    Ok (forallb (fun i => negb (n mod i =? 0)) (range_step2 3 (r + 1))).

(** [while not is_prime(q): q += m], run for at most [fuel] tests; [Ok None]
    when the loop has not returned within [fuel] tests. *)
Fixpoint ntt_search (fuel : nat) (q m : Z) : result (option Z) :=
  match fuel with
  | O => Ok None
  | S fuel' =>
      let* p := is_prime q in
      if p then Ok (Some q) else ntt_search fuel' (q + m) m
  end.

(** [_find_ntt_prime(start_q, N)] *)
Definition find_ntt_prime (fuel : nat) (start_q : Z) (N : nat) : result (option Z) :=
  let m := 2 * Z.of_nat N in
  let* d := py_floordiv start_q m in
  ntt_search fuel (d * m + 1) m.

(** The attribute [self.q] once [BFVSchemeAccelerated.__init__(N, t, q_bits)]
    has run (after a successful base constructor): the base value
    [(1 << q_bits) - 1], replaced by the NTT-friendly prime when the compiled
    multiplier is importable ([cpp_available]); an exception raised by
    [_find_ntt_prime] inside the [try] block ([ZeroDivisionError] from
    [// m], [OverflowError] or [TypeError] from [is_prime]) is caught and
    leaves the base value.  [None] when the search has not returned within
    [fuel] tests. *)
Definition accelerated_q (cpp_available : bool) (fuel : nat) (N : nat) (q_bits : Z)
  : option Z :=
  let base := Z.shiftl 1 q_bits - 1 in
  if cpp_available then
    match find_ntt_prime fuel (Z.shiftl 1 q_bits) N with
    | Ok (Some q) => Some q
    | Ok None => None
    | Raise _ => Some base
    end
  else Some base.

End FloatRoot.

(** * Specification vocabulary *)

(** Trial division by the odd numbers up to the integer square root: the
    primality test that [is_prime] computes when its float root is
    accurate. *)
Definition trial_prime (n : Z) : bool :=
  if n mod 2 =? 0 then false
  else forallb (fun i => negb (n mod i =? 0)) (range_step2 3 (Z.sqrt n + 1)).

(** The rounded root is accurate at [n]: not below the integer square root,
    and below [n]. *)
Definition root_ok (fsqrt : Z → Z) (n : Z) : Prop := Z.sqrt n <= fsqrt n < n.

(** A sum over a window of [n] consecutive integers, starting at [c]. *)
Definition window (n : nat) (g : Z → Z) (c : Z) : Z :=
  zsum n (fun j => g (c + Z.of_nat j)).

(** Congruence modulo [q]. *)
Definition eqm (q a b : Z) : Prop := a mod q = b mod q.

(** Coefficient [i] of an array, 0 beyond its end, and the array of the first
    [n] values of a function. *)
Definition coef (a : list Z) (i : nat) : Z := nth i a 0.

Definition tabulate (n : nat) (F : nat → Z) : list Z := map F (seq 0 n).

(** The array [result] after the loop has consumed the prefix [l] of [conv]. *)
Definition folded (N : nat) (l : list Z) : list Z :=
  tabulate N (fun k => coef l k - coef l (k + N)).

(** The anti-periodic extension of a coefficient function:
    [ext N y (z + N) = - ext N y z], and [ext N y z = y z] on [0 <= z < N]. *)
Definition ext (N : nat) (y : nat → Z) (z : Z) : Z :=
  (if Z.even (z / Z.of_nat N) then 1 else -1) * y (Z.to_nat (z mod Z.of_nat N)).

(** Coefficient [k] of the product in [Z[X]/(X^N + 1)]. *)
Definition ncoef (N : nat) (x y : nat → Z) (k : nat) : Z :=
  zsum N (fun i => x i * ext N y (Z.of_nat k - Z.of_nat i)).

(** A polynomial of the ring: [N] coefficients, each in [[0, q)]. *)
Definition poly_ok (R : PolynomialRing) (a : list Z) : Prop :=
  length a = ring_N R ∧ Forall (fun x => 0 <= x < ring_q R) a.

(** The fields of an engine agree the way both constructors leave them. *)
Definition scheme_ok (E : BFVScheme) : Prop :=
  poly_ring E = mkRing (N E) (q E) ∧ delta E = q E / t E.

(** The values [np.random.choice([-1, 0, 1])] can draw. *)
Definition ternary (l : list Z) : Prop := Forall (fun x => -1 <= x <= 1) l.

(** Coefficients of the public key component [b = -(a*s + e)]. *)
Definition pk_coef (E : BFVScheme) (s a g : list Z) (k : nat) : Z :=
  (- ((ncoef (N E) (coef a) (coef s) k mod q E
       + coef (sample_bounded g (noise_bound E)) k) mod q E)) mod q E.

(** Coefficients of a fresh ciphertext. *)
Definition c0_coef (E : BFVScheme) (pk0 m u g1 : list Z) (k : nat) : Z :=
  ((ncoef (N E) (coef pk0) (coef u) k mod q E
    + coef (sample_bounded g1 (noise_bound E)) k) mod q E
   + (coef m k * delta E) mod q E) mod q E.

Definition c1_coef (E : BFVScheme) (pk1 u g2 : list Z) (k : nat) : Z :=
  (ncoef (N E) (coef pk1) (coef u) k mod q E
   + coef (sample_bounded g2 (noise_bound E)) k) mod q E.

(** Coefficients of [noisy_m = c0 + c1*s]. *)
Definition noisy_coef (E : BFVScheme) (c0 c1 s : list Z) (k : nat) : Z :=
  (coef c0 k + ncoef (N E) (coef c1) (coef s) k mod q E) mod q E.

(** The noise of a fresh ciphertext under the key generated from
    [(s, a, g)]: [e1 + e2*s - e*u] in [Z[X]/(X^N + 1)]. *)
Definition fresh_noise (E : BFVScheme) (s g u g1 g2 : list Z) (k : nat) : Z :=
  coef (sample_bounded g1 (noise_bound E)) k
  + ncoef (N E) (coef (sample_bounded g2 (noise_bound E))) (coef s) k
  - ncoef (N E) (coef (sample_bounded g (noise_bound E))) (coef u) k.








(** The factorial, as an integer. *)
Fixpoint zfact (n : nat) : Z :=
  match n with
  | O => 1
  | S n' => Z.of_nat (S n') * zfact n'
  end.

(** A small engine inside the noise budget, used to instantiate the theorems:
    [N = 2], [t = 4], [q = 2^10 - 1], [int(sigma) = 3]. *)
Definition demo_engine : BFVScheme :=
  mkScheme 2 4 1023 3 (mkRing 2 1023) 255 32 None None None 1.

(** The demo engine with the secret key [s = 1] and a matching public key. *)
Definition keyed_engine : BFVScheme := set_keys demo_engine [1; 0] ([0; 0], [0; 0]).

(** A ring of degree 2 modulo 7. *)
Definition demo_ring : PolynomialRing := mkRing 2 7.

(** Two parameter dictionaries that differ in the plaintext modulus. *)
Definition params_t4 : Params := <["N" := 2]> (<["t" := 4]> (<["q" := 1023]> ∅)).
Definition params_t5 : Params := <["N" := 2]> (<["t" := 5]> (<["q" := 1023]> ∅)).



(** ** Vocabulary of the further properties *)

(** The monomial [X^j] and the zero polynomial of a ring of degree [N]. *)
Definition monomial (N j : nat) : list Z :=
  tabulate N (fun i => if decide (i = j) then 1 else 0).

Definition zero_poly (N : nat) : list Z := replicate N 0.

(** Python's slice [l[:n]]: a negative [n] counts from the end. *)
Definition py_take {A} (n : Z) (l : list A) : list A :=
  if 0 <=? n then take (Z.to_nat n) l
  else take (length l - Z.to_nat (- n)) l.

(** The helpers of [FastFHE_Custom] ([example_accelerated.py]; the class
    [FastFHE_MultiMatch] of [example_range_search.py] has the same bodies).
    [E] is the engine [self.HE]; the attribute [self.t] is the plaintext
    modulus the constructor hands to that engine, [t E]. *)
Module FastFHE.




End FastFHE.

(** An engine inside the envelope of the theorems: consistent fields, a ring
    of positive degree, [0 < t < q <= 2^62] and a noise bound that fits a
    machine word. *)
Definition engine_ok (E : BFVScheme) : Prop :=
  scheme_ok E ∧ (0 < N E)%nat ∧ 0 < t E < q E ∧ q E <= 2 ^ 62
  ∧ 0 <= noise_bound E <= 2 ^ 62.







(** The representative of [v] modulo [t] in the window [(t//2 - t, t//2]]. *)
Definition centered (t v : Z) : Z :=
  if t / 2 <? v mod t then v mod t - t else v mod t.






(** The pair [(b, a)] hides the polynomial [m] under the secret [s] with the
    error [e]: [b] is a ring polynomial, [a] has [N] coefficients and
    [b + a*s = m - e (mod q)] coefficientwise. *)
Definition key_relation (E : BFVScheme) (s b a : list Z) (m e : nat → Z) : Prop :=
  poly_ok (poly_ring E) b ∧ length a = N E ∧
  ∀ k, (k < N E)%nat →
       eqm (q E) (coef b k + ncoef (N E) (coef a) (coef s) k) (m k - e k).

(** The sampler draws of [generate_relin_key]: two uniform and two Gaussian
    arrays of length [N]. *)
Definition relin_draws (E : BFVScheme) (a0 g0 a1 g1 : list Z) : Prop :=
  length a0 = N E ∧ length g0 = N E ∧ length a1 = N E ∧ length g1 = N E.


(** ** Strings ([example_range_search.py]) *)

(** A Python [str], as the list of its code points. *)
Definition pystr : Type := list Z.

(** The UTF-8 encoding of one code point, as [str.encode('utf-8')] produces
    it: one to four bytes; a surrogate ([U+D800] to [U+DFFF]) raises
    [UnicodeEncodeError], a subclass of [ValueError]. *)
Definition utf8_char (c : Z) : result (list Z) :=
  if c <? 128 then Ok [c]
  else if c <? 2048 then Ok [192 + c / 64; 128 + c mod 64]
  else if c <? 65536 then
    if (55296 <=? c) && (c <=? 57343)
    then Raise (ValueError "surrogates not allowed")
    else Ok [224 + c / 4096; 128 + (c / 64) mod 64; 128 + c mod 64]
  else Ok [240 + c / 262144; 128 + (c / 4096) mod 64;
           128 + (c / 64) mod 64; 128 + c mod 64].

(** [s.encode('utf-8')] *)
Fixpoint utf8_encode (s : pystr) : result (list Z) :=
  match s with
  | [] => Ok []
  | c :: s' =>
      let* b := utf8_char c in
      let* bs := utf8_encode s' in
      Ok (b ++ bs)
  end.

(** [chr(i)]: [ValueError] outside [range(0x110000)]. *)
Definition chr (i : Z) : result Z :=
  if (0 <=? i) && (i <? 1114112) then Ok i
  else Raise (ValueError "chr() arg not in range(0x110000)").

(** [string_to_ints(s, max_len=12)]:
    [[x for x in (b[:max_len] + b'\x00'*(max_len-len(b)))]] with
    [b = s.encode('utf-8')]; a bytes object times a negative count is
    empty. *)
Definition string_to_ints (s : pystr) (max_len : Z) : result (list Z) :=
  let* b := utf8_encode s in
  Ok (py_take max_len b ++ replicate (Z.to_nat (max_len - Z.of_nat (length b))) 0).

(** [ints_to_string(ints)]: the characters up to the first 0. *)
Fixpoint ints_to_string (ints : list Z) : result pystr :=
  match ints with
  | [] => Ok []
  | val :: rest =>
      if val =? 0 then Ok []
      else
        let* c := chr val in
        let* cs := ints_to_string rest in
        Ok (c :: cs)
  end.



(** * Properties *)

(** ** Finite sums *)

Section Sums.

Lemma zsum_ext n f g :
  (∀ i, (i < n)%nat → f i = g i) → zsum n f = zsum n g.
Proof.
  induction n as [|n IH]; intros H; simpl; [reflexivity|].
  rewrite IH by (intros; apply H; lia). rewrite H by lia. reflexivity.
Qed.

Lemma zsum_zero n f : (∀ i, (i < n)%nat → f i = 0) → zsum n f = 0.
Proof.
  induction n as [|n IH]; intros H; simpl; [reflexivity|].
  rewrite IH by (intros; apply H; lia). rewrite H by lia. reflexivity.
Qed.

Lemma zsum_extend n m f :
  (n <= m)%nat → (∀ i, (n <= i < m)%nat → f i = 0) → zsum m f = zsum n f.
Proof.
  induction m as [|m IH]; intros Hle H.
  - replace n with 0%nat by lia. reflexivity.
  - destruct (decide (n = S m)) as [->|Hne]; [reflexivity|].
    simpl. rewrite IH by (try lia; intros; apply H; lia).
    rewrite H by lia. lia.
Qed.

Lemma zsum_add n f g : zsum n (fun i => f i + g i) = zsum n f + zsum n g.
Proof. induction n as [|n IH]; simpl; lia. Qed.

Lemma zsum_sub n f g : zsum n (fun i => f i - g i) = zsum n f - zsum n g.
Proof. induction n as [|n IH]; simpl; lia. Qed.

Lemma zsum_opp n f : zsum n (fun i => - f i) = - zsum n f.
Proof. induction n as [|n IH]; simpl; lia. Qed.

Lemma zsum_scale_r n f c : zsum n (fun i => f i * c) = zsum n f * c.
Proof. induction n as [|n IH]; simpl; lia. Qed.

Lemma zsum_scale_l n f c : zsum n (fun i => c * f i) = c * zsum n f.
Proof. induction n as [|n IH]; simpl; lia. Qed.

Lemma zsum_swap n m (f : nat → nat → Z) :
  zsum n (fun i => zsum m (fun j => f i j))
  = zsum m (fun j => zsum n (fun i => f i j)).
Proof.
  induction n as [|n IH]; simpl.
  - symmetry. apply zsum_zero. reflexivity.
  - rewrite IH, <- zsum_add. reflexivity.
Qed.

Lemma zsum_abs_bound n f M :
  (∀ i, (i < n)%nat → Z.abs (f i) <= M) → Z.abs (zsum n f) <= Z.of_nat n * M.
Proof.
  induction n as [|n IH]; intros H; simpl zsum; [simpl; lia|].
  specialize (IH (fun i Hi => H i (Nat.lt_lt_succ_r _ _ Hi))).
  specialize (H n (Nat.lt_succ_diag_r n)). lia.
Qed.

Lemma zsum_front n f : zsum (S n) f = f 0%nat + zsum n (fun j => f (S j)).
Proof. induction n as [|n IH]; [simpl; lia|]. simpl in *. lia. Qed.

(** Reading a sum backwards. *)
Lemma zsum_rev n f : zsum n (fun i => f (n - 1 - i)%nat) = zsum n f.
Proof.
  revert f. induction n as [|n IH]; intros f; [reflexivity|].
  rewrite (zsum_front n f), <- (IH (fun j => f (S j))). cbn [zsum].
  replace (S n - 1 - n)%nat with 0%nat by lia.
  rewrite Z.add_comm. f_equal. apply zsum_ext. intros i Hi. f_equal. lia.
Qed.

Lemma window_succ n g c :
  window n g (c + 1) = window n g c - g c + g (c + Z.of_nat n).
Proof.
  unfold window. induction n as [|n IH]; simpl zsum.
  - replace (c + Z.of_nat 0) with c by lia. lia.
  - rewrite IH. replace (c + 1 + Z.of_nat n) with (c + Z.of_nat (S n)) by lia.
    lia.
Qed.

(** A function of period [n] has the same sum over every window. *)
Lemma window_periodic n g c :
  (∀ x, g (x + Z.of_nat n) = g x) → window n g c = window n g 0.
Proof.
  intros Hper. induction c as [|c IH|c IH] using Z.peano_ind.
  - reflexivity.
  - unfold Z.succ. rewrite window_succ, Hper. lia.
  - rewrite <- IH. replace c with (Z.pred c + 1) at 2 by lia.
    rewrite window_succ, Hper. lia.
Qed.

Lemma zsum_reflect_periodic n g c :
  (∀ x, g (x + Z.of_nat n) = g x) →
  zsum n (fun j => g (c - Z.of_nat j)) = zsum n (fun j => g (Z.of_nat j)).
Proof.
  intros Hper.
  rewrite <- (zsum_rev n (fun j => g (c - Z.of_nat j))).
  destruct n as [|n]; [reflexivity|].
  rewrite (zsum_ext _ _ (fun j => g ((c - Z.of_nat n) + Z.of_nat j)))
    by (intros; f_equal; lia).
  fold (window (S n) g (c - Z.of_nat n)).
  rewrite (window_periodic _ _ _ Hper). unfold window.
  apply zsum_ext. intros. f_equal.
Qed.

End Sums.

(** ** Congruence modulo [q] *)

Global Instance eqm_equiv q : Equivalence (eqm q).
Proof.
  split; unfold eqm; [intros ?|intros ? ?|intros ? ? ?]; congruence.
Qed.

Global Instance eqm_add q : Proper (eqm q ==> eqm q ==> eqm q) Z.add.
Proof.
  unfold eqm. intros a a' Ha b b' Hb.
  destruct (decide (q = 0)) as [->|Hq].
  - rewrite !Z.mod_0_r in *. congruence.
  - rewrite (Z.add_mod a b), (Z.add_mod a' b') by assumption. congruence.
Qed.

Global Instance eqm_mul q : Proper (eqm q ==> eqm q ==> eqm q) Z.mul.
Proof.
  unfold eqm. intros a a' Ha b b' Hb.
  destruct (decide (q = 0)) as [->|Hq].
  - rewrite !Z.mod_0_r in *. congruence.
  - rewrite (Z.mul_mod a b), (Z.mul_mod a' b') by assumption. congruence.
Qed.

Global Instance eqm_opp q : Proper (eqm q ==> eqm q) Z.opp.
Proof.
  intros a a' Ha. replace (- a) with (-1 * a) by lia.
  replace (- a') with (-1 * a') by lia. rewrite Ha. reflexivity.
Qed.

Global Instance eqm_sub q : Proper (eqm q ==> eqm q ==> eqm q) Z.sub.
Proof.
  intros a a' Ha b b' Hb. unfold Z.sub. rewrite Ha, Hb. reflexivity.
Qed.

Lemma eqm_mod q a : eqm q (a mod q) a.
Proof. unfold eqm. apply Zmod_mod. Qed.

Lemma eqm_zsum q n f g :
  (∀ i, (i < n)%nat → eqm q (f i) (g i)) → eqm q (zsum n f) (zsum n g).
Proof.
  induction n as [|n IH]; intros H; simpl; [reflexivity|].
  rewrite IH by (intros; apply H; lia). rewrite (H n) by lia. reflexivity.
Qed.

Lemma eqm_witness q a b : 0 < q → eqm q a b → ∃ k, a = b + k * q.
Proof.
  intros Hq H. unfold eqm in H. exists (a / q - b / q).
  pose proof (Z.div_mod a q). pose proof (Z.div_mod b q). nia.
Qed.

(** ** Results, arrays and machine words *)

Lemma rmap_map {A B} (f : A → result B) (g : A → B) l :
  Forall (fun x => f x = Ok (g x)) l → rmap f l = Ok (map g l).
Proof.
  induction 1 as [|x l Hx _ IH]; simpl; [reflexivity|].
  rewrite Hx. simpl. rewrite IH. reflexivity.
Qed.

Lemma rmap_inv {A B} (f : A → result B) l r :
  rmap f l = Ok r → Forall2 (fun x y => f x = Ok y) l r.
Proof.
  revert r. induction l as [|x l IH]; simpl; intros r H.
  - injection H as <-. constructor.
  - destruct (f x) as [y|] eqn:Hx; simpl in H; [|discriminate].
    destruct (rmap f l) as [ys|] eqn:Hl; simpl in H; [|discriminate].
    injection H as <-. constructor; auto.
Qed.

Lemma wrap64_id z : in_int64 z → wrap64 z = z.
Proof.
  unfold in_int64, wrap64. intros H. rewrite Z.mod_small; lia.
Qed.

Lemma np_mod_nz x d : d ≠ 0 → np_mod x d = x mod d.
Proof. unfold np_mod. intros H. destruct (Z.eqb_spec d 0); [lia|reflexivity]. Qed.

Lemma np_mod_range x d : 0 < d → 0 <= np_mod x d < d.
Proof. intros H. rewrite np_mod_nz by lia. apply Z.mod_pos_bound, H. Qed.


Lemma py_mod_nz x d : d ≠ 0 → py_mod x d = Ok (x mod d).
Proof. unfold py_mod. intros H. destruct (Z.eqb_spec d 0); [lia|reflexivity]. Qed.

Lemma py_floordiv_nz x d : d ≠ 0 → py_floordiv x d = Ok (x / d).
Proof.
  unfold py_floordiv. intros H. destruct (Z.eqb_spec d 0); [lia|reflexivity].
Qed.

Lemma astype_int64_ok z : in_int64 z → astype_int64 z = Ok z.
Proof.
  unfold in_int64, astype_int64. intros H.
  destruct (Z.leb_spec (- 2 ^ 63) z); [|lia].
  destruct (Z.ltb_spec z (2 ^ 63)); [reflexivity|lia].
Qed.

Lemma astype_int64_inv z y : astype_int64 z = Ok y → y = z ∧ in_int64 z.
Proof.
  unfold in_int64, astype_int64.
  destruct (Z.leb_spec (- 2 ^ 63) z); simpl; [|discriminate].
  destruct (Z.ltb_spec z (2 ^ 63)); [|discriminate].
  intros [= <-]. lia.
Qed.

Lemma clip_range b x : 0 <= b → - b <= clip (- b) b x <= b.
Proof. unfold clip. lia. Qed.

Lemma length_tabulate n F : length (tabulate n F) = n.
Proof. unfold tabulate. rewrite length_map, length_seq. reflexivity. Qed.

Lemma coef_tabulate n F i : (i < n)%nat → coef (tabulate n F) i = F i.
Proof.
  intros H. unfold coef, tabulate.
  rewrite (nth_indep _ 0 (F 0%nat)) by (rewrite length_map, length_seq; lia).
  rewrite map_nth, seq_nth by lia. reflexivity.
Qed.

Lemma coef_overflow a i : (length a <= i)%nat → coef a i = 0.
Proof. intros H. apply nth_overflow, H. Qed.

Lemma list_eq_coef a b :
  length a = length b → (∀ i, (i < length a)%nat → coef a i = coef b i) → a = b.
Proof. intros Hl H. apply (nth_ext a b 0 0 Hl H). Qed.

Lemma tabulate_coef a : tabulate (length a) (coef a) = a.
Proof.
  apply list_eq_coef; rewrite length_tabulate; [reflexivity|].
  intros i Hi. apply coef_tabulate, Hi.
Qed.

Lemma tabulate_ext n F G :
  (∀ i, (i < n)%nat → F i = G i) → tabulate n F = tabulate n G.
Proof.
  intros H. apply list_eq_coef; rewrite !length_tabulate; [reflexivity|].
  intros i Hi. rewrite !coef_tabulate by assumption. apply H, Hi.
Qed.

Lemma map_tabulate f n F : map f (tabulate n F) = tabulate n (fun i => f (F i)).
Proof. unfold tabulate. apply map_map. Qed.

Lemma map_coef f a : map f a = tabulate (length a) (fun i => f (coef a i)).
Proof. rewrite <- map_tabulate, tabulate_coef. reflexivity. Qed.

Lemma Forall_tabulate (P : Z → Prop) n F :
  (∀ i, (i < n)%nat → P (F i)) → Forall P (tabulate n F).
Proof.
  intros H. unfold tabulate. apply List.Forall_map, List.Forall_forall.
  intros i Hi. apply in_seq in Hi. apply H. lia.
Qed.

Lemma Forall_coef (P : Z → Prop) a i :
  Forall P a → (i < length a)%nat → P (coef a i).
Proof.
  intros H Hi. rewrite List.Forall_forall in H. apply H, nth_In, Hi.
Qed.

Lemma coef_zip_with f a b i :
  (i < length a)%nat → (i < length b)%nat →
  coef (zip_with f a b) i = f (coef a i) (coef b i).
Proof.
  unfold coef. revert b i.
  induction a as [|x a IH]; intros [|y b] [|i] Ha Hb; simpl in *; try lia.
  apply IH; lia.
Qed.

Lemma zip_with_coef f a b :
  length a = length b →
  zip_with f a b = tabulate (length a) (fun i => f (coef a i) (coef b i)).
Proof.
  intros Hl. apply list_eq_coef.
  - rewrite length_tabulate, length_zip_with. lia.
  - rewrite length_zip_with. intros i Hi.
    rewrite coef_zip_with, coef_tabulate by lia. reflexivity.
Qed.

Lemma rmap_tabulate (f : Z → result Z) g n F :
  (∀ i, (i < n)%nat → f (F i) = Ok (g (F i))) →
  rmap f (tabulate n F) = Ok (tabulate n (fun i => g (F i))).
Proof.
  intros H. rewrite <- map_tabulate. apply rmap_map.
  apply Forall_tabulate with (P := fun x => f x = Ok (g x)), H.
Qed.

Lemma coef_alter f i a k :
  coef (alter f i a) k = if decide (k = i) then
                           if decide (i < length a)%nat then f (coef a i) else 0
                         else coef a k.
Proof.
  unfold coef. rewrite !nth_lookup, list_lookup_alter.
  destruct (decide (k = i)) as [->|Hne].
  - rewrite decide_True by reflexivity.
    destruct (decide (i < length a)%nat) as [Hi|Hi].
    + apply lookup_lt_is_Some in Hi as [x Hx]. rewrite Hx. reflexivity.
    + rewrite lookup_ge_None_2 by lia. reflexivity.
  - rewrite decide_False by congruence. reflexivity.
Qed.

Lemma coef_snoc l c k :
  coef (l ++ [c]) k = if decide (k = length l) then c else coef l k.
Proof.
  unfold coef. destruct (decide (k = length l)) as [->|Hne].
  - rewrite app_nth2, Nat.sub_diag by lia. reflexivity.
  - destruct (decide (k < length l)%nat).
    + rewrite app_nth1 by lia. reflexivity.
    + rewrite !nth_overflow; [reflexivity|lia|rewrite length_app; simpl; lia].
Qed.

(** ** The negacyclic fold, coefficient by coefficient *)

Lemma length_folded N l : length (folded N l) = N.
Proof. apply length_tabulate. Qed.

Lemma fold_step_snoc N l c :
  (length l < 2 * N)%nat →
  fold_step N (Ok (folded N l)) (length l, c) = Ok (folded N (l ++ [c])).
Proof.
  intros Hl. unfold fold_step. simpl.
  destruct (decide (length l < N)%nat) as [Hlt|Hge].
  - f_equal. apply list_eq_coef.
    + rewrite length_alter, !length_folded. reflexivity.
    + rewrite length_alter, length_folded. intros k Hk.
      rewrite coef_alter, length_folded. unfold folded.
      rewrite !coef_tabulate, !coef_snoc by lia.
      repeat case_decide; try lia.
      rewrite !coef_overflow by lia. lia.
  - rewrite decide_True by lia. f_equal. apply list_eq_coef.
    + rewrite length_alter, !length_folded. reflexivity.
    + rewrite length_alter, length_folded. intros k Hk.
      rewrite coef_alter, length_folded. unfold folded.
      rewrite !coef_tabulate, !coef_snoc by lia.
      repeat case_decide; try lia.
      replace (length l - N + N)%nat with (length l) by lia.
      rewrite (coef_overflow l (length l)), H by lia. lia.
Qed.

Lemma negacyclic_loop N l2 : ∀ l1,
  (length l1 + length l2 <= 2 * N)%nat →
  fold_left (fold_step N) (zip (seq (length l1) (length l2)) l2) (Ok (folded N l1))
  = Ok (folded N (l1 ++ l2)).
Proof.
  induction l2 as [|c l2 IH]; intros l1 Hl;
    cbn [length seq zip_with fold_left] in *.
  - rewrite app_nil_r. reflexivity.
  - rewrite fold_step_snoc by lia.
    replace (S (length l1)) with (length (l1 ++ [c]))
      by (rewrite length_app; simpl; lia).
    rewrite IH by (rewrite length_app; simpl; lia).
    rewrite <- app_assoc. reflexivity.
Qed.

Lemma folded_nil N : folded N [] = replicate N 0.
Proof.
  apply list_eq_coef.
  - rewrite length_folded, length_replicate. reflexivity.
  - rewrite length_folded. intros i Hi. unfold folded.
    rewrite coef_tabulate, !(coef_overflow []) by (simpl; lia). unfold coef.
    rewrite nth_lookup, lookup_replicate_2 by lia. reflexivity.
Qed.

Lemma negacyclic_spec N conv :
  (length conv <= 2 * N)%nat → negacyclic N conv = Ok (folded N conv).
Proof.
  intros Hl. unfold negacyclic. rewrite <- folded_nil.
  apply (negacyclic_loop N conv []). simpl. lia.
Qed.

Lemma fold_step_length N acc ic r :
  (∀ res, acc = Ok res → length res = N) →
  fold_step N acc ic = Ok r → length r = N.
Proof.
  intros Hacc. unfold fold_step. destruct acc as [res|]; simpl; [|discriminate].
  destruct ic as [i c]. specialize (Hacc res eq_refl).
  repeat case_decide; intros [= <-]; rewrite length_alter; assumption.
Qed.

Lemma negacyclic_length N conv r : negacyclic N conv = Ok r → length r = N.
Proof.
  unfold negacyclic.
  assert (Hgen : ∀ l acc, (∀ res, acc = Ok res → length res = N) →
                 fold_left (fold_step N) l acc = Ok r → length r = N).
  { induction l as [|x l IH]; intros acc Hacc; simpl.
    - apply Hacc.
    - apply IH. intros res. apply fold_step_length, Hacc. }
  apply Hgen. intros res [= <-]. apply length_replicate.
Qed.

Lemma ext_small N y z : 0 <= z < Z.of_nat N → ext N y z = y (Z.to_nat z).
Proof.
  intros H. unfold ext. rewrite Z.div_small, Z.mod_small by lia. simpl. lia.
Qed.

Lemma ext_neg N y z :
  - Z.of_nat N <= z < 0 → ext N y z = - y (Z.to_nat (z + Z.of_nat N)).
Proof.
  intros H. unfold ext.
  assert (Hd : z / Z.of_nat N = -1).
  { symmetry. apply (Z.div_unique_pos z (Z.of_nat N) (-1) (z + Z.of_nat N)); lia. }
  assert (Hm : z mod Z.of_nat N = z + Z.of_nat N).
  { symmetry. apply (Z.mod_unique_pos z (Z.of_nat N) (-1)); lia. }
  rewrite Hd, Hm. simpl. lia.
Qed.

Lemma ext_shift N y z :
  (0 < N)%nat → ext N y (z + Z.of_nat N) = - ext N y z.
Proof.
  intros HN. unfold ext.
  replace (z + Z.of_nat N) with (z + 1 * Z.of_nat N) by lia.
  rewrite Z.div_add, Z.mod_add by lia.
  rewrite Z.even_add. destruct (Z.even (z / Z.of_nat N)); simpl; lia.
Qed.

Lemma ext_abs_bound N y z M :
  (0 < N)%nat → (∀ i, (i < N)%nat → Z.abs (y i) <= M) → Z.abs (ext N y z) <= M.
Proof.
  intros HN Hy. unfold ext.
  pose proof (Z.mod_pos_bound z (Z.of_nat N) ltac:(lia)).
  specialize (Hy (Z.to_nat (z mod Z.of_nat N)) ltac:(lia)).
  destruct (Z.even _); lia.
Qed.

Lemma conv_coeff_high a b k :
  (length a + length b - 1 <= k)%nat → (0 < length a)%nat → conv_coeff a b k = 0.
Proof.
  intros Hk Ha. unfold conv_coeff. apply zsum_zero. intros i Hi.
  destruct (decide (i < length a)%nat).
  - rewrite (nth_overflow b) by lia. lia.
  - rewrite (nth_overflow a) by lia. lia.
Qed.

Lemma folded_conv N a b k :
  length a = N → length b = N → (k < N)%nat →
  conv_coeff a b k - conv_coeff a b (k + N) = ncoef N (coef a) (coef b) k.
Proof.
  intros Ha Hb Hk. unfold conv_coeff, ncoef.
  set (g1 := fun i => if decide (i <= k)%nat then coef a i * coef b (k - i) else 0).
  set (g2 := fun i => if decide (i <= k)%nat then 0 else coef a i * coef b (k + N - i)).
  rewrite (zsum_ext (S k) _ g1)
    by (intros i Hi; unfold g1; rewrite decide_True by lia; reflexivity).
  rewrite <- (zsum_extend (S k) N g1)
    by (try lia; intros i Hi; unfold g1; rewrite decide_False by lia; reflexivity).
  rewrite (zsum_extend N (S (k + N)))
    by (try lia; intros i Hi; rewrite (nth_overflow a) by lia; lia).
  rewrite (zsum_ext N (fun i => nth i a 0 * nth (k + N - i) b 0) g2).
  2:{ intros i Hi. unfold g2. case_decide; [|reflexivity].
      rewrite (nth_overflow b) by lia. lia. }
  rewrite <- zsum_sub. apply zsum_ext. intros i Hi. unfold g1, g2.
  case_decide.
  - rewrite ext_small by lia. rewrite Z.sub_0_r. do 2 f_equal. lia.
  - rewrite ext_neg by lia. rewrite Z.sub_0_l, <- Z.mul_opp_r. do 3 f_equal. lia.
Qed.

Lemma convolve_spec a b :
  (0 < length b <= length a)%nat →
  convolve a b = Ok (tabulate (length a + length b - 1) (conv_coeff a b)).
Proof.
  intros Hab. unfold convolve.
  rewrite !decide_False by lia. reflexivity.
Qed.

Lemma folded_convolve N a b :
  (0 < N)%nat → length a = N → length b = N →
  folded N (tabulate (N + N - 1) (conv_coeff a b))
  = tabulate N (ncoef N (coef a) (coef b)).
Proof.
  intros HN Ha Hb. unfold folded. apply tabulate_ext. intros k Hk.
  rewrite <- folded_conv by assumption.
  rewrite coef_tabulate by lia. f_equal.
  destruct (decide (k + N < N + N - 1)%nat).
  - apply coef_tabulate. lia.
  - rewrite coef_overflow by (rewrite length_tabulate; lia).
    symmetry. apply conv_coeff_high; lia.
Qed.

(** The fold of a full convolution, shared by [PolynomialRing.mul] and
    [mul_scale]. *)
Lemma negacyclic_convolve N a b :
  (0 < N)%nat → length a = N → length b = N →
  negacyclic N (tabulate (length a + length b - 1) (conv_coeff a b))
  = Ok (tabulate N (ncoef N (coef a) (coef b))).
Proof.
  intros HN Ha Hb.
  rewrite negacyclic_spec by (rewrite length_tabulate; lia).
  rewrite Ha, Hb, folded_convolve by assumption. reflexivity.
Qed.

(** ** The ring operations, coefficient by coefficient *)

Lemma rmap_astype_inv l r : rmap astype_int64 l = Ok r → r = l.
Proof.
  intros H. apply rmap_inv in H. induction H as [|x y l r Hxy _ IH].
  - reflexivity.
  - apply astype_int64_inv in Hxy as [-> _]. rewrite IH. reflexivity.
Qed.

Lemma rmap_astype_tabulate n F :
  (∀ i, (i < n)%nat → in_int64 (F i)) →
  rmap astype_int64 (tabulate n F) = Ok (tabulate n F).
Proof.
  intros H. rewrite (rmap_tabulate astype_int64 (fun x => x))
    by (intros; apply astype_int64_ok; auto). reflexivity.
Qed.

Lemma rmap_py_mod_tabulate q n F :
  q ≠ 0 →
  rmap (fun x => py_mod x q) (tabulate n F) = Ok (tabulate n (fun i => F i mod q)).
Proof.
  intros H. apply (rmap_tabulate (fun x => py_mod x q) (fun x => x mod q)).
  intros. apply py_mod_nz, H.
Qed.

Lemma mod_in_int64 x q : 0 < q <= 2 ^ 63 → in_int64 (x mod q).
Proof.
  intros H. pose proof (Z.mod_pos_bound x q ltac:(lia)). unfold in_int64. lia.
Qed.

Section RingSpecs.

Variable R : PolynomialRing.
Local Abbreviation n := (ring_N R).
Local Abbreviation q := (ring_q R).

Lemma mul_spec a b :
  (0 < n)%nat → length a = n → length b = n → 0 < q <= 2 ^ 63 →
  Ring.mul R a b = Ok (tabulate n (fun k => ncoef n (coef a) (coef b) k mod q)).
Proof.
  intros Hn Ha Hb Hq. unfold Ring.mul.
  rewrite convolve_spec by lia. cbn [rbind].
  rewrite negacyclic_convolve by assumption. cbn [rbind].
  rewrite rmap_py_mod_tabulate by lia. cbn [rbind].
  apply rmap_astype_tabulate. intros. apply mod_in_int64, Hq.
Qed.

Lemma mod_q_spec x :
  q ≠ 0 ∧ - 2 ^ 63 <= q < 2 ^ 63 →
  Ring.mod_q R x = Ok (tabulate (length x) (fun i => coef x i mod q)).
Proof.
  intros [Hq Hfit]. unfold Ring.mod_q.
  rewrite astype_int64_ok by exact Hfit. cbn [rbind]. f_equal.
  rewrite map_coef. apply tabulate_ext. intros i _. apply np_mod_nz, Hq.
Qed.

Lemma add_spec a b m :
  length a = m → length b = m → q ≠ 0 ∧ - 2 ^ 63 <= q < 2 ^ 63 →
  (∀ i, (i < m)%nat → in_int64 (coef a i + coef b i)) →
  Ring.add R a b = Ok (tabulate m (fun i => (coef a i + coef b i) mod q)).
Proof.
  intros Ha Hb Hq Hr. unfold Ring.add, broadcast2.
  rewrite decide_True by congruence. cbn [rbind].
  rewrite mod_q_spec by exact Hq. f_equal.
  rewrite length_zip_with, Ha, Hb, Nat.min_id. apply tabulate_ext. intros i Hi.
  rewrite coef_zip_with by lia. rewrite wrap64_id by auto. reflexivity.
Qed.

Lemma sub_spec a b m :
  length a = m → length b = m → q ≠ 0 ∧ - 2 ^ 63 <= q < 2 ^ 63 →
  (∀ i, (i < m)%nat → in_int64 (coef a i - coef b i)) →
  Ring.sub R a b = Ok (tabulate m (fun i => (coef a i - coef b i) mod q)).
Proof.
  intros Ha Hb Hq Hr. unfold Ring.sub, broadcast2.
  rewrite decide_True by congruence. cbn [rbind].
  rewrite mod_q_spec by exact Hq. f_equal.
  rewrite length_zip_with, Ha, Hb, Nat.min_id. apply tabulate_ext. intros i Hi.
  rewrite coef_zip_with by lia. rewrite wrap64_id by auto. reflexivity.
Qed.

Lemma neg_spec a :
  q ≠ 0 ∧ - 2 ^ 63 <= q < 2 ^ 63 →
  (∀ i, (i < length a)%nat → in_int64 (- coef a i)) →
  Ring.neg R a = Ok (tabulate (length a) (fun i => (- coef a i) mod q)).
Proof.
  intros Hq Hr. unfold Ring.neg. rewrite mod_q_spec by exact Hq. f_equal.
  rewrite length_map. apply tabulate_ext. intros i Hi.
  rewrite (map_coef (fun x => wrap64 (- x))), coef_tabulate by exact Hi.
  apply f_equal2; [|reflexivity]. apply wrap64_id. auto.
Qed.

Lemma mul_scalar_spec a c :
  0 < q <= 2 ^ 63 →
  Ring.mul_scalar R a c = Ok (tabulate (length a) (fun i => (coef a i * c) mod q)).
Proof.
  intros Hq. unfold Ring.mul_scalar.
  rewrite <- (tabulate_coef a) at 1.
  rewrite (rmap_tabulate (fun x => py_mod (x * c) q) (fun x => (x * c) mod q))
    by (intros; apply py_mod_nz; lia).
  cbn [rbind]. apply rmap_astype_tabulate. intros. apply mod_in_int64, Hq.
Qed.

End RingSpecs.

(** ** Algebra of the negacyclic product *)

Section NegacyclicAlgebra.

Variable N : nat.
Hypothesis HN : (0 < N)%nat.

Lemma ext_unshift y z : ext N y (z - Z.of_nat N) = - ext N y z.
Proof.
  pose proof (ext_shift N y (z - Z.of_nat N) HN) as H.
  replace (z - Z.of_nat N + Z.of_nat N) with z in H by lia. lia.
Qed.

Lemma ncoef_ext_l x x' y k :
  (∀ i, (i < N)%nat → x i = x' i) → ncoef N x y k = ncoef N x' y k.
Proof.
  intros H. unfold ncoef. apply zsum_ext. intros i Hi. rewrite H by assumption.
  reflexivity.
Qed.

Lemma ncoef_eqm_l q x x' y k :
  (∀ i, (i < N)%nat → eqm q (x i) (x' i)) →
  eqm q (ncoef N x y k) (ncoef N x' y k).
Proof.
  intros H. unfold ncoef. apply eqm_zsum. intros i Hi.
  rewrite (H i Hi). reflexivity.
Qed.

Lemma ncoef_add_l x x' y k :
  ncoef N (fun i => x i + x' i) y k = ncoef N x y k + ncoef N x' y k.
Proof.
  unfold ncoef. rewrite <- zsum_add. apply zsum_ext. intros. lia.
Qed.

Lemma ncoef_opp_l x y k : ncoef N (fun i => - x i) y k = - ncoef N x y k.
Proof.
  unfold ncoef. rewrite <- zsum_opp. apply zsum_ext. intros. lia.
Qed.

(** The convolution of two anti-periodic sequences over one period is
    symmetric in the two sequences. *)
Lemma ext_conv_sym y z (i k : nat) :
  zsum N (fun j => ext N y (Z.of_nat j - Z.of_nat i)
                   * ext N z (Z.of_nat k - Z.of_nat j))
  = zsum N (fun j => ext N z (Z.of_nat j - Z.of_nat i)
                     * ext N y (Z.of_nat k - Z.of_nat j)).
Proof.
  set (g := fun w : Z => ext N y (w - Z.of_nat i) * ext N z (Z.of_nat k - w)).
  assert (Hper : ∀ w, g (w + Z.of_nat N) = g w).
  { intros w. unfold g.
    replace (w + Z.of_nat N - Z.of_nat i) with (w - Z.of_nat i + Z.of_nat N) by lia.
    replace (Z.of_nat k - (w + Z.of_nat N)) with (Z.of_nat k - w - Z.of_nat N) by lia.
    rewrite ext_shift, ext_unshift by assumption. lia. }
  transitivity (zsum N (fun j => g (Z.of_nat j))); [reflexivity|].
  rewrite <- (zsum_reflect_periodic N g (Z.of_nat k + Z.of_nat i) Hper).
  apply zsum_ext. intros j Hj. unfold g. rewrite Z.mul_comm. f_equal; f_equal; lia.
Qed.

(** [(a * s) * u = (a * u) * s] in [Z[X]/(X^N + 1)]. *)
Lemma ncoef_swap a s u k :
  ncoef N (ncoef N a s) u k = ncoef N (ncoef N a u) s k.
Proof.
  assert (Hexp : ∀ y z,
    ncoef N (ncoef N a y) z k
    = zsum N (fun i => a i * zsum N (fun j =>
        ext N y (Z.of_nat j - Z.of_nat i) * ext N z (Z.of_nat k - Z.of_nat j)))).
  { intros y z. unfold ncoef.
    rewrite (zsum_ext N _ (fun j => zsum N (fun i =>
      a i * (ext N y (Z.of_nat j - Z.of_nat i) * ext N z (Z.of_nat k - Z.of_nat j))))).
    2:{ intros j Hj. rewrite <- zsum_scale_r. apply zsum_ext. intros. lia. }
    rewrite zsum_swap. apply zsum_ext. intros i Hi. apply zsum_scale_l. }
  rewrite !Hexp. apply zsum_ext. intros i Hi. f_equal. apply ext_conv_sym.
Qed.

Lemma ncoef_abs_bound x y k B M :
  (∀ i, (i < N)%nat → Z.abs (x i) <= B) →
  (∀ i, (i < N)%nat → Z.abs (y i) <= M) →
  Z.abs (ncoef N x y k) <= Z.of_nat N * (B * M).
Proof.
  intros Hx Hy. unfold ncoef. apply zsum_abs_bound. intros i Hi.
  specialize (Hx i Hi).
  pose proof (ext_abs_bound N y (Z.of_nat k - Z.of_nat i) M HN Hy).
  rewrite Z.abs_mul. nia.
Qed.

End NegacyclicAlgebra.

(** ** Rounded scaling *)

(** [round(v * t / q) mod t] recovers [m] from [v = delta * m + e (mod q)]
    while the noise [e] stays inside the budget. *)
Lemma scale_recovers q t m e v :
  0 < t → 0 < q → 0 <= m < t →
  eqm q v (q / t * m + e) →
  - (q / 2) <= e * t - (q mod t) * m < q - q / 2 →
  ((v * t + q / 2) / q) mod t = m.
Proof.
  intros Ht Hq Hm Hv He.
  destruct (eqm_witness q _ _ Hq Hv) as [k Hk].
  pose proof (Z.div_mod q t ltac:(lia)) as Hdm.
  assert (Hdiv : (v * t + q / 2) / q = m + k * t).
  { symmetry.
    apply (Z.div_unique_pos _ q _ (e * t - (q mod t) * m + q / 2)); [lia|].
    rewrite Hk. nia. }
  rewrite Hdiv. rewrite Z.mod_add by lia. apply Z.mod_small. lia.
Qed.

(** ** The engine, coefficient by coefficient *)

Lemma BFVScheme_init_ok n tt q_bits sg E :
  BFVScheme_init n tt q_bits sg = Ok E →
  scheme_ok E ∧ N E = n ∧ t E = tt ∧ q E = 2 ^ q_bits - 1 ∧ int_sigma E = sg
  ∧ secret_key E = None ∧ public_key E = None ∧ relin_key E = None.
Proof.
  unfold BFVScheme_init, PolynomialRing_init, py_floordiv.
  destruct (Z.ltb_spec q_bits 0); [discriminate|].
  destruct (Z.land _ _ =? 0); simpl; [|discriminate].
  destruct (Z.eqb_spec tt 0); simpl; [discriminate|].
  intros [= <-]. unfold scheme_ok. simpl.
  rewrite Z.shiftl_1_l. repeat split; reflexivity.
Qed.

Lemma length_sample_bounded g B : length (sample_bounded g B) = length g.
Proof. apply length_map. Qed.

Lemma coef_sample_bounded g B i :
  0 <= B → - B <= coef (sample_bounded g B) i <= B.
Proof.
  intros HB. destruct (decide (i < length g)%nat) as [Hi|Hi].
  - unfold sample_bounded. rewrite map_coef, coef_tabulate by assumption.
    apply clip_range, HB.
  - rewrite coef_overflow by (rewrite length_sample_bounded; lia). lia.
Qed.

Section EngineSpecs.

Variable E : BFVScheme.
Hypothesis Hok : scheme_ok E.
Hypothesis HN : (0 < N E)%nat.
Hypothesis Hq : 0 < q E <= 2 ^ 62.
Hypothesis HB : 0 <= noise_bound E <= 2 ^ 62.

Local Abbreviation n := (N E).
Local Abbreviation B := (noise_bound E).

Lemma mod_q_range x : 0 <= x mod q E < q E.
Proof. apply Z.mod_pos_bound. lia. Qed.

Lemma add_noise_spec x g :
  length x = n → length g = n → (∀ i, (i < n)%nat → 0 <= coef x i < q E) →
  Ring.add (poly_ring E) x (sample_bounded g B)
  = Ok (tabulate n (fun i => (coef x i + coef (sample_bounded g B) i) mod q E)).
Proof.
  intros Hx Hg Hr. destruct Hok as [-> _].
  apply add_spec; cbn [ring_q ring_N];
    [assumption|rewrite length_sample_bounded; assumption|lia|].
  intros i Hi. specialize (Hr i Hi).
  pose proof (coef_sample_bounded g B i ltac:(lia)). unfold in_int64. lia.
Qed.

Lemma mul_engine_spec a b :
  length a = n → length b = n →
  Ring.mul (poly_ring E) a b
  = Ok (tabulate n (fun k => ncoef n (coef a) (coef b) k mod q E)).
Proof.
  intros Ha Hb. destruct Hok as [-> _].
  apply (mul_spec (mkRing n (q E))); cbn [ring_q ring_N]; try assumption. lia.
Qed.

Lemma key_generation_spec s a g :
  length s = n → length a = n → length g = n →
  BFV.key_generation E s a g
  = Ok (set_keys E s (tabulate n (pk_coef E s a g), a), s,
        (tabulate n (pk_coef E s a g), a)).
Proof.
  intros Hs Ha Hg. unfold BFV.key_generation.
  rewrite mul_engine_spec by assumption. cbn [rbind].
  rewrite add_noise_spec; try assumption; try apply length_tabulate.
  2:{ intros i Hi. rewrite coef_tabulate by assumption. apply mod_q_range. }
  cbn [rbind]. destruct Hok as [Hring _]. rewrite Hring.
  rewrite neg_spec; cbn [ring_q ring_N]; rewrite ?length_tabulate; try lia.
  2:{ intros i Hi. rewrite coef_tabulate by assumption.
      pose proof (mod_q_range
        (coef (tabulate n (fun k => ncoef n (coef a) (coef s) k mod q E)) i
         + coef (sample_bounded g B) i)).
      unfold in_int64. lia. }
  assert (Hb : tabulate n (fun i => (- coef (tabulate n (fun i0 =>
                (coef (tabulate n (fun k => ncoef n (coef a) (coef s) k mod q E)) i0
                 + coef (sample_bounded g B) i0) mod q E)) i) mod q E)
               = tabulate n (pk_coef E s a g)).
  { apply tabulate_ext. intros i Hi. unfold pk_coef.
    rewrite !coef_tabulate by assumption. reflexivity. }
  rewrite Hb. reflexivity.
Qed.

Lemma encrypt_spec pk0 pk1 m pp u g1 g2 :
  public_key E = Some (pk0, pk1) →
  length pk0 = n → length pk1 = n → length m = n →
  length u = n → length g1 = n → length g2 = n →
  BFV.encrypt E (mkPlaintext m pp) u g1 g2
  = Ok (mkCiphertext [tabulate n (c0_coef E pk0 m u g1); tabulate n (c1_coef E pk1 u g2)]
                     (scheme_params E)).
Proof.
  intros Hpk H0 H1 Hm Hu Hg1 Hg2. unfold BFV.encrypt. rewrite Hpk.
  cbn [pt_poly].
  rewrite mul_engine_spec by assumption. cbn [rbind].
  rewrite add_noise_spec; try assumption; try apply length_tabulate.
  2:{ intros i Hi. rewrite coef_tabulate by assumption. apply mod_q_range. }
  cbn [rbind]. pose proof Hok as [Hring _].
  rewrite Hring at 1. rewrite mul_scalar_spec by (cbn [ring_q]; lia).
  cbn [rbind ring_q]. rewrite Hring at 1.
  rewrite (add_spec _ _ _ n); cbn [ring_q];
    rewrite ?length_tabulate; try assumption; try lia.
  2:{ intros i Hi. rewrite !coef_tabulate by lia.
      pose proof (mod_q_range (coef m i * delta E)).
      pose proof (mod_q_range
        (ncoef n (coef pk0) (coef u) i mod q E + coef (sample_bounded g1 B) i)).
      unfold in_int64. lia. }
  cbn [rbind]. rewrite mul_engine_spec by assumption. cbn [rbind].
  rewrite add_noise_spec; try assumption; try apply length_tabulate.
  2:{ intros i Hi. rewrite coef_tabulate by assumption. apply mod_q_range. }
  cbn [rbind]. do 3 f_equal.
  - apply tabulate_ext. intros i Hi. unfold c0_coef.
    rewrite !coef_tabulate by lia. reflexivity.
  - f_equal. apply tabulate_ext. intros i Hi. unfold c1_coef.
    rewrite !coef_tabulate by lia. reflexivity.
Qed.

Lemma decrypt_spec s c0 c1 rest pp :
  secret_key E = Some s → 0 < t E < 2 ^ 63 →
  length s = n → length c0 = n → length c1 = n →
  (∀ i, (i < n)%nat → 0 <= coef c0 i < q E) →
  BFV.decrypt E (mkCiphertext (c0 :: c1 :: rest) pp)
  = Ok (mkPlaintext
          (tabulate n (fun k => ((noisy_coef E c0 c1 s k * t E + q E / 2) / q E) mod t E))
          (scheme_params E)).
Proof.
  intros Hsk Ht Hs H0 H1 Hr. unfold BFV.decrypt. rewrite Hsk.
  cbn [components].
  change (take 2 (c0 :: c1 :: rest)) with [c0; c1]. cbn [unpack2 rbind].
  rewrite mul_engine_spec by assumption. cbn [rbind].
  pose proof Hok as [Hring _]. rewrite Hring.
  rewrite (add_spec _ _ _ n); cbn [ring_q];
    rewrite ?length_tabulate; try assumption; try lia.
  2:{ intros i Hi. rewrite !coef_tabulate by lia. specialize (Hr i Hi).
      pose proof (mod_q_range (ncoef n (coef c1) (coef s) i)).
      unfold in_int64. lia. }
  cbn [rbind]. unfold BFV.scale.
  rewrite (rmap_tabulate _ (fun v => (v * t E + q E / 2) / q E))
    by (intros; apply py_floordiv_nz; lia).
  cbn [rbind]. rewrite rmap_astype_tabulate.
  2:{ intros i Hi. rewrite coef_tabulate by assumption.
      pose proof (mod_q_range (coef c0 i + ncoef n (coef c1) (coef s) i mod q E))
        as Hv.
      set (v := (coef c0 i + ncoef n (coef c1) (coef s) i mod q E) mod q E) in *.
      assert (0 <= (v * t E + q E / 2) / q E < t E + 1).
      { pose proof (Z.div_pos (q E) 2 ltac:(lia) ltac:(lia)).
        pose proof (Z.div_lt (q E) 2 ltac:(lia) ltac:(lia)).
        split; [apply Z.div_pos; nia|].
        apply Z.div_lt_upper_bound; nia. }
      unfold in_int64. lia. }
  cbn [rbind]. do 2 f_equal. rewrite map_tabulate. apply tabulate_ext.
  intros i Hi. rewrite np_mod_nz by lia. unfold noisy_coef.
  rewrite !coef_tabulate by lia. reflexivity.
Qed.

End EngineSpecs.

Lemma ternary_coef l i : ternary l → Z.abs (coef l i) <= 1.
Proof.
  intros H. destruct (decide (i < length l)%nat) as [Hi|Hi].
  - pose proof (Forall_coef _ l i H Hi) as Hc. simpl in Hc. lia.
  - rewrite coef_overflow by lia. lia.
Qed.

(** ** Fresh ciphertexts *)

Section FreshNoise.

Variable E : BFVScheme.
Hypothesis HN : (0 < N E)%nat.

Local Abbreviation n := (N E).
Local Abbreviation B := (noise_bound E).

Variables s a g u g1 g2 m : list Z.

Lemma noisy_fresh k :
  (k < n)%nat →
  eqm (q E)
    (noisy_coef E (tabulate n (c0_coef E (tabulate n (pk_coef E s a g)) m u g1))
                  (tabulate n (c1_coef E a u g2)) s k)
    (delta E * coef m k + fresh_noise E s g u g1 g2 k).
Proof.
  intros Hk. unfold noisy_coef. rewrite !eqm_mod.
  rewrite coef_tabulate by assumption.
  rewrite (ncoef_ext_l n _ (c1_coef E a u g2))
    by (intros; apply coef_tabulate; assumption).
  rewrite (ncoef_eqm_l n (q E) (c1_coef E a u g2)
            (fun i => ncoef n (coef a) (coef u) i + coef (sample_bounded g2 B) i)).
  2:{ intros i Hi. unfold c1_coef. rewrite !eqm_mod. reflexivity. }
  rewrite ncoef_add_l.
  unfold c0_coef. rewrite !eqm_mod.
  rewrite (ncoef_ext_l n _ (pk_coef E s a g))
    by (intros; apply coef_tabulate; assumption).
  rewrite (ncoef_eqm_l n (q E) (pk_coef E s a g)
            (fun i => - (ncoef n (coef a) (coef s) i + coef (sample_bounded g B) i))).
  2:{ intros i Hi. unfold pk_coef. rewrite !eqm_mod. reflexivity. }
  rewrite ncoef_opp_l, ncoef_add_l.
  rewrite (ncoef_swap n HN (coef a) (coef s) (coef u)).
  unfold fresh_noise.
  match goal with |- eqm _ ?x ?y => replace x with y by lia end.
  - reflexivity.
  - exact HN.
  - exact HN.
  - exact HN.
Qed.

Lemma fresh_noise_bound k :
  0 <= B → ternary s → ternary u →
  Z.abs (fresh_noise E s g u g1 g2 k) <= B * (2 * Z.of_nat n + 1).
Proof.
  intros HB Hs Hu. unfold fresh_noise.
  pose proof (coef_sample_bounded g1 B k HB).
  pose proof (ncoef_abs_bound n HN (coef (sample_bounded g2 B)) (coef s) k B 1) as H2.
  pose proof (ncoef_abs_bound n HN (coef (sample_bounded g B)) (coef u) k B 1) as H3.
  assert (Hc : ∀ x i, (i < n)%nat → Z.abs (coef (sample_bounded x B) i) <= B).
  { intros x i _. pose proof (coef_sample_bounded x B i HB). lia. }
  specialize (H2 (Hc g2) (fun i _ => ternary_coef s i Hs)).
  specialize (H3 (Hc g) (fun i _ => ternary_coef u i Hu)).
  lia.
Qed.

End FreshNoise.

(** * The claims *)

(** ** C1: decryption of a fresh ciphertext *)

Lemma demo_engine_init : BFVScheme_init 2 4 10 3 = Ok demo_engine.
Proof. reflexivity. Qed.

(** C1, as stated, fails: with the valid parameters [N = 2], [t = 4],
    [q = 2^3 - 1 = 7] (so [delta = 1]), the plaintext [[1; 0]], a ternary [u]
    and a Gaussian draw [2] (inside the bound [6 * int(3.2) = 18]), the
    matching secret key decrypts the fresh ciphertext to [[2; 0]]. *)
Lemma C1_decrypt_encrypt_small_modulus :
  ∃ E E' sk pk ct pt,
    BFVScheme_init 2 4 3 3 = Ok E ∧ t E < q E ∧ noise_bound E = 18 ∧
    BFV.key_generation E [1; 0] [0; 0] [0; 0] = Ok (E', sk, pk) ∧
    BFV.encrypt E' (mkPlaintext [1; 0] ∅) [0; 0] [2; 0] [0; 0] = Ok ct ∧
    BFV.decrypt E' ct = Ok pt ∧
    pt_poly pt = [2; 0] ∧ pt_poly pt ≠ [1; 0].
Proof.
  do 6 eexists. split; [reflexivity|].
  split; [vm_compute; reflexivity|]. split; [reflexivity|].
  split; [vm_compute; reflexivity|].
  split; [vm_compute; reflexivity|].
  split; [vm_compute; reflexivity|].
  split; [reflexivity|discriminate].
Qed.

(** C1, amended: for an engine with [0 < t < q <= 2^62] whose parameters leave
    room for the fresh noise,
    [2 * (t * B * (2N + 1) + (q mod t) * (t - 1)) < q] with
    [B = 6 * int(sigma)], every plaintext [m] with [N] coefficients in
    [[0, t)], every ternary [s] and [u], every uniform draw [a] and all
    Gaussian draws: key generation and encryption succeed, and decrypting
    with the matching secret key returns exactly [m]. *)
Theorem C1_decrypt_encrypt_within_budget
    (E : BFVScheme) (s a g u g1 g2 m : list Z) (pp : Params) :
  scheme_ok E →
  (0 < N E)%nat →
  0 < t E < q E →
  q E <= 2 ^ 62 →
  0 <= noise_bound E →
  2 * (t E * (noise_bound E * (2 * Z.of_nat (N E) + 1))
       + (q E mod t E) * (t E - 1)) < q E →
  length s = N E → ternary s →
  length a = N E → length g = N E →
  length u = N E → ternary u →
  length g1 = N E → length g2 = N E →
  length m = N E → Forall (fun x => 0 <= x < t E) m →
  ∃ E' sk pk ct,
    BFV.key_generation E s a g = Ok (E', sk, pk) ∧
    BFV.encrypt E' (mkPlaintext m pp) u g1 g2 = Ok ct ∧
    BFV.decrypt E' ct = Ok (mkPlaintext m (scheme_params E')).
Proof.
  intros Hok HN Ht Hq HB Hbudget Hs Hts Ha Hg Hu Htu Hg1 Hg2 Hm Hmr.
  assert (Hq' : 0 < q E <= 2 ^ 62) by lia.
  assert (HB' : 0 <= noise_bound E <= 2 ^ 62).
  { pose proof (Z.mod_pos_bound (q E) (t E) ltac:(lia)).
    assert (noise_bound E <= t E * (noise_bound E * (2 * Z.of_nat (N E) + 1)))
      by nia.
    assert (0 <= q E mod t E * (t E - 1)) by nia. lia. }
  set (pk0 := tabulate (N E) (pk_coef E s a g)).
  set (E' := set_keys E s (pk0, a)).
  exists E', s, (pk0, a).
  eexists. split; [apply key_generation_spec; assumption|].
  assert (Hok' : scheme_ok E') by exact Hok.
  split.
  { apply (encrypt_spec E' Hok' HN Hq' HB' pk0 a); try assumption;
      [reflexivity|apply length_tabulate]. }
  rewrite (decrypt_spec E' Hok' HN Hq' s); try assumption;
    try apply length_tabulate; try reflexivity; try (cbn; lia).
  2:{ intros i Hi. change (N E') with (N E). rewrite coef_tabulate by assumption.
      unfold c0_coef. apply Z.mod_pos_bound. cbn. lia. }
  do 2 f_equal. change (N E') with (N E).
  transitivity (tabulate (N E) (coef m)); [|rewrite <- Hm; apply tabulate_coef].
  apply tabulate_ext. intros k Hk.
  pose proof (noisy_fresh E HN s a g u g1 g2 m k Hk) as Hcong.
  pose proof (fresh_noise_bound E HN s g u g1 g2 k HB Hts Htu) as Hnoise.
  pose proof (Forall_coef _ m k Hmr ltac:(lia)) as Hmk. simpl in Hmk.
  destruct Hok as [_ Hdelta]. rewrite Hdelta in Hcong.
  apply (scale_recovers (q E) (t E) (coef m k) (fresh_noise E s g u g1 g2 k));
    try lia; [exact Hcong|].
  pose proof (Z.mod_pos_bound (q E) (t E) ltac:(lia)) as Hr.
  pose proof (Z.div_mod (q E) 2 ltac:(lia)) as Hhalf.
  pose proof (Z.mod_pos_bound (q E) 2 ltac:(lia)) as Hpar.
  set (e := fresh_noise E s g u g1 g2 k) in *.
  set (r := q E mod t E) in *.
  set (X := noise_bound E * (2 * Z.of_nat (N E) + 1)) in *.
  assert (- (t E * X) <= e * t E <= t E * X) by nia.
  assert (0 <= r * coef m k <= r * (t E - 1)) by nia.
  lia.
Qed.

Lemma C1_decrypt_encrypt_within_budget_witness :
  ∃ E' sk pk ct,
    BFV.key_generation demo_engine [1; -1] [5; 1000] [7; -40] = Ok (E', sk, pk) ∧
    BFV.encrypt E' (mkPlaintext [3; 2] ∅) [-1; 0] [-3; 25] [2; -1] = Ok ct ∧
    BFV.decrypt E' ct = Ok (mkPlaintext [3; 2] (scheme_params E')).
Proof.
  apply (C1_decrypt_encrypt_within_budget demo_engine);
    try reflexivity; try (vm_compute; lia);
    try (repeat constructor; lia); try (vm_compute; easy).
Defined.

(** ** C9: the ring operations preserve the polynomial invariant *)

Lemma poly_ok_tabulate_mod R F :
  0 < ring_q R → poly_ok R (tabulate (ring_N R) (fun i => F i mod ring_q R)).
Proof.
  intros Hq. split; [apply length_tabulate|].
  apply Forall_tabulate with (P := fun x => 0 <= x < ring_q R).
  intros. apply Z.mod_pos_bound, Hq.
Qed.

Lemma poly_ok_tabulate_np_mod R F :
  0 < ring_q R → poly_ok R (tabulate (ring_N R) (fun i => np_mod (F i) (ring_q R))).
Proof.
  intros Hq. split; [apply length_tabulate|].
  apply Forall_tabulate with (P := fun x => 0 <= x < ring_q R).
  intros. apply np_mod_range, Hq.
Qed.

Lemma broadcast2_same f a b :
  length a = length b →
  broadcast2 f a b = Ok (tabulate (length a) (fun i => f (coef a i) (coef b i))).
Proof.
  intros H. unfold broadcast2. rewrite decide_True by assumption.
  rewrite zip_with_coef by assumption. reflexivity.
Qed.

Lemma mul_result R a b r :
  (0 < ring_N R)%nat → length a = ring_N R → length b = ring_N R → ring_q R ≠ 0 →
  Ring.mul R a b = Ok r →
  r = tabulate (ring_N R)
        (fun k => ncoef (ring_N R) (coef a) (coef b) k mod ring_q R).
Proof.
  intros Hn Ha Hb Hq. unfold Ring.mul.
  rewrite convolve_spec by lia. cbn [rbind].
  rewrite negacyclic_convolve by assumption. cbn [rbind].
  rewrite rmap_py_mod_tabulate by assumption. cbn [rbind].
  apply rmap_astype_inv.
Qed.

Lemma mul_scalar_result R a c r :
  ring_q R ≠ 0 →
  Ring.mul_scalar R a c = Ok r →
  r = tabulate (length a) (fun i => (coef a i * c) mod ring_q R).
Proof.
  intros Hq. unfold Ring.mul_scalar. rewrite <- (tabulate_coef a) at 1.
  rewrite (rmap_tabulate (fun x => py_mod (x * c) (ring_q R))
             (fun x => (x * c) mod ring_q R))
    by (intros; apply py_mod_nz; assumption).
  cbn [rbind]. apply rmap_astype_inv.
Qed.

Lemma poly_ok_nil R a : poly_ok R a → ring_N R = 0%nat → a = [].
Proof. intros [Hl _] H0. rewrite H0 in Hl. destruct a; [reflexivity|discriminate]. Qed.

Lemma poly_ok_modulus R a : poly_ok R a → (0 < ring_N R)%nat → 0 < ring_q R.
Proof.
  intros [Hl Hr] Hn. destruct a as [|x a]; simpl in Hl; [lia|].
  inversion Hr; subst. lia.
Qed.

Lemma mod_q_closed R x r :
  length x = ring_N R → ((0 < ring_N R)%nat → 0 < ring_q R) →
  Ring.mod_q R x = Ok r → poly_ok R r.
Proof.
  intros Hx Hq. unfold Ring.mod_q.
  destruct (astype_int64 (ring_q R)) as [q'|] eqn:Hfit; [|discriminate].
  apply astype_int64_inv in Hfit as [-> _]. cbn [rbind]. intros [= <-].
  split; [rewrite length_map; exact Hx|].
  apply List.Forall_map, List.Forall_forall. intros v Hv.
  apply np_mod_range, Hq. destruct x; [contradiction|simpl in Hx; lia].
Qed.

Lemma mod_q_returns R x :
  - 2 ^ 63 <= ring_q R < 2 ^ 63 → ∃ r, Ring.mod_q R x = Ok r.
Proof.
  intros Hfit. unfold Ring.mod_q. rewrite astype_int64_ok by exact Hfit.
  eexists. reflexivity.
Qed.

(** C9: for polynomials [a], [b] of length [N] with coefficients in [[0, q)]
    and any integer [scalar], every polynomial returned by [add], [sub],
    [neg], [mul_scalar] and [mul] has length [N] and coefficients in
    [[0, q)].  The operations do return: [add], [sub] and [neg] when [q] fits
    a signed 64-bit word (otherwise the conversion of [q] raises
    [OverflowError]), [mul_scalar] when [q <= 2^63], and [mul] when moreover
    [N >= 1]. *)
Theorem C9_ring_ops_closed (R : PolynomialRing) (a b : list Z) (scalar : Z) :
  poly_ok R a → poly_ok R b →
  (∀ r, Ring.add R a b = Ok r → poly_ok R r) ∧
  (∀ r, Ring.sub R a b = Ok r → poly_ok R r) ∧
  (∀ r, Ring.neg R a = Ok r → poly_ok R r) ∧
  (∀ r, Ring.mul_scalar R a scalar = Ok r → poly_ok R r) ∧
  (∀ r, Ring.mul R a b = Ok r → poly_ok R r) ∧
  (- 2 ^ 63 <= ring_q R < 2 ^ 63 → ∃ r, Ring.add R a b = Ok r) ∧
  (- 2 ^ 63 <= ring_q R < 2 ^ 63 → ∃ r, Ring.sub R a b = Ok r) ∧
  (- 2 ^ 63 <= ring_q R < 2 ^ 63 → ∃ r, Ring.neg R a = Ok r) ∧
  (ring_q R <= 2 ^ 63 → ∃ r, Ring.mul_scalar R a scalar = Ok r) ∧
  (ring_q R <= 2 ^ 63 → (0 < ring_N R)%nat → ∃ r, Ring.mul R a b = Ok r).
Proof.
  intros Hpa Hpb.
  assert (Hq : (0 < ring_N R)%nat → 0 < ring_q R) by apply (poly_ok_modulus R a Hpa).
  pose proof Hpa as [Ha Hra]. pose proof Hpb as [Hb Hrb].
  assert (Hbc : ∀ f, broadcast2 f a b
                     = Ok (tabulate (ring_N R) (fun i => f (coef a i) (coef b i)))).
  { intros f. rewrite broadcast2_same, Ha by congruence. reflexivity. }
  split_and!.
  - intros r. unfold Ring.add. rewrite Hbc. cbn [rbind].
    apply mod_q_closed; [apply length_tabulate|exact Hq].
  - intros r. unfold Ring.sub. rewrite Hbc. cbn [rbind].
    apply mod_q_closed; [apply length_tabulate|exact Hq].
  - intros r. unfold Ring.neg.
    apply mod_q_closed; [rewrite length_map; exact Ha|exact Hq].
  - intros r Hr. destruct (decide (ring_N R = 0%nat)) as [H0|Hpos].
    + rewrite (poly_ok_nil R a Hpa H0) in Hr. injection Hr as <-.
      split; [symmetry; exact H0|constructor].
    + assert (0 < ring_q R) by (apply Hq; lia).
      apply mul_scalar_result in Hr; [|lia]. subst r.
      rewrite Ha. apply poly_ok_tabulate_mod. assumption.
  - intros r Hr. destruct (decide (ring_N R = 0%nat)) as [H0|Hpos].
    + rewrite (poly_ok_nil R a Hpa H0), (poly_ok_nil R b Hpb H0) in Hr. discriminate.
    + assert (0 < ring_q R) by (apply Hq; lia).
      apply mul_result in Hr; try assumption; try lia. subst r.
      apply poly_ok_tabulate_mod. assumption.
  - intros Hfit. unfold Ring.add. rewrite Hbc. cbn [rbind].
    apply mod_q_returns, Hfit.
  - intros Hfit. unfold Ring.sub. rewrite Hbc. cbn [rbind].
    apply mod_q_returns, Hfit.
  - intros Hfit. unfold Ring.neg. apply mod_q_returns, Hfit.
  - intros Hq63. destruct (decide (ring_N R = 0%nat)) as [H0|Hpos].
    + rewrite (poly_ok_nil R a Hpa H0). eexists. reflexivity.
    + eexists. apply mul_scalar_spec. split; [apply Hq; lia|exact Hq63].
  - intros Hq63 Hn. eexists. apply mul_spec; try assumption.
    split; [apply Hq; lia|exact Hq63].
Qed.

Lemma C9_ring_ops_closed_witness :
  (∀ r, Ring.add demo_ring [1; 2] [3; 6] = Ok r → poly_ok demo_ring r) ∧
  (∀ r, Ring.sub demo_ring [1; 2] [3; 6] = Ok r → poly_ok demo_ring r) ∧
  (∀ r, Ring.neg demo_ring [1; 2] = Ok r → poly_ok demo_ring r) ∧
  (∀ r, Ring.mul_scalar demo_ring [1; 2] (-5) = Ok r → poly_ok demo_ring r) ∧
  (∀ r, Ring.mul demo_ring [1; 2] [3; 6] = Ok r → poly_ok demo_ring r) ∧
  (- 2 ^ 63 <= ring_q demo_ring < 2 ^ 63 →
   ∃ r, Ring.add demo_ring [1; 2] [3; 6] = Ok r) ∧
  (- 2 ^ 63 <= ring_q demo_ring < 2 ^ 63 →
   ∃ r, Ring.sub demo_ring [1; 2] [3; 6] = Ok r) ∧
  (- 2 ^ 63 <= ring_q demo_ring < 2 ^ 63 → ∃ r, Ring.neg demo_ring [1; 2] = Ok r) ∧
  (ring_q demo_ring <= 2 ^ 63 → ∃ r, Ring.mul_scalar demo_ring [1; 2] (-5) = Ok r) ∧
  (ring_q demo_ring <= 2 ^ 63 → (0 < ring_N demo_ring)%nat →
   ∃ r, Ring.mul demo_ring [1; 2] [3; 6] = Ok r).
Proof.
  apply (C9_ring_ops_closed demo_ring [1; 2] [3; 6] (-5));
    (split; [reflexivity|repeat constructor; lia]).
Defined.

(** ** C10: relinearization of a ciphertext that is not of size 3 *)

(** C10: a ciphertext whose size is not 3 is returned unchanged by
    [relinearize], without error, whatever the engine's keys are (in
    particular with no relinearization key). *)
Theorem C10_relinearize_other_sizes (E : BFVScheme) (ct : Ciphertext) :
  size ct ≠ 3%nat → BFV.relinearize E ct = Ok ct.
Proof.
  intros H. unfold BFV.relinearize. rewrite decide_True by assumption.
  reflexivity.
Qed.

Lemma C10_relinearize_other_sizes_witness :
  relin_key demo_engine = None ∧
  BFV.relinearize demo_engine (mkCiphertext [[1; 2]; [3; 4]] ∅)
  = Ok (mkCiphertext [[1; 2]; [3; 4]] ∅).
Proof.
  split; [reflexivity|].
  apply (C10_relinearize_other_sizes demo_engine). unfold size. simpl. lia.
Defined.

(** ** C3: decryption of a size-3 ciphertext *)




(** ** C5: decoding *)




(** ** C7: homomorphic subtraction and parameters *)

(** C7, as stated, fails: no parameter check exists.  Two ciphertexts whose
    parameter dictionaries differ in [t] are subtracted without error, and
    the result carries the parameters of the first. *)
Lemma C7_homomorphic_sub_accepts_mismatch :
  params_t4 ≠ params_t5 ∧
  homomorphic_sub demo_engine (mkCiphertext [[5; 7]; [1; 2]] params_t4)
                              (mkCiphertext [[9; 3]; [1; 0]] params_t5)
  = Ok (mkCiphertext [[1019; 4]; [0; 2]] params_t4).
Proof.
  split.
  - intros H. apply (f_equal (fun m : Params => m !! "t")) in H.
    vm_compute in H. discriminate.
  - vm_compute. reflexivity.
Qed.

(** C7, amended: for every pair of size-2 ciphertexts whose components have
    pairwise equal lengths, whatever their parameters, [homomorphic_sub]
    returns the componentwise difference mod [q] with the parameters of the
    first operand; parameters are never compared and no parameter error is
    raised.  This holds on every engine whose modulus fits a signed 64-bit
    word, as [q_bits <= 62] gives; for a larger modulus the conversion of
    [q] in [sub] raises [OverflowError], again whatever the parameters.  (The
    sources hold no homomorphic addition.) *)
Theorem C7_homomorphic_sub_ignores_params
    (E : BFVScheme) (c10 c11 c20 c21 : list Z) (p1 p2 : Params) :
  length c10 = length c20 → length c11 = length c21 →
  (- 2 ^ 63 <= ring_q (poly_ring E) < 2 ^ 63 →
   homomorphic_sub E (mkCiphertext [c10; c11] p1) (mkCiphertext [c20; c21] p2)
   = Ok (mkCiphertext
           [tabulate (length c10) (fun i =>
              np_mod (wrap64 (coef c10 i - coef c20 i)) (ring_q (poly_ring E)));
            tabulate (length c11) (fun i =>
              np_mod (wrap64 (coef c11 i - coef c21 i)) (ring_q (poly_ring E)))]
           p1))
  ∧ (¬ - 2 ^ 63 <= ring_q (poly_ring E) < 2 ^ 63 →
     homomorphic_sub E (mkCiphertext [c10; c11] p1) (mkCiphertext [c20; c21] p2)
     = Raise OverflowError).
Proof.
  intros H0 H1. unfold homomorphic_sub, Ring.sub, Ring.mod_q.
  cbn [components unpack2 rbind].
  rewrite !broadcast2_same by assumption. cbn [rbind]. split; intros Hfit.
  - rewrite astype_int64_ok by exact Hfit. cbn [rbind].
    rewrite !map_tabulate. reflexivity.
  - destruct (astype_int64 (ring_q (poly_ring E))) as [q'|e] eqn:Hq.
    + apply astype_int64_inv in Hq as [_ Hq]. contradiction.
    + unfold astype_int64 in Hq.
      destruct ((- 2 ^ 63 <=? ring_q (poly_ring E)) && (ring_q (poly_ring E) <? 2 ^ 63));
        [discriminate|].
      injection Hq as <-. reflexivity.
Qed.

Lemma C7_homomorphic_sub_ignores_params_witness :
  homomorphic_sub demo_engine
    (mkCiphertext [[5; 7]; [1; 2]] params_t4)
    (mkCiphertext [[9; 3]; [1; 0]] params_t5)
  = Ok (mkCiphertext
          [tabulate 2 (fun i =>
             np_mod (wrap64 (coef [5; 7] i - coef [9; 3] i)) 1023);
           tabulate 2 (fun i =>
             np_mod (wrap64 (coef [1; 2] i - coef [1; 0] i)) 1023)]
          params_t4).
Proof.
  apply (proj1 (C7_homomorphic_sub_ignores_params demo_engine
                  [5; 7] [1; 2] [9; 3] [1; 0] params_t4 params_t5 eq_refl eq_refl)).
  simpl. lia.
Defined.

(** ** C8: encryption without a public key *)

(** C8, as stated, fails on the error kind: without a public key [encrypt]
    raises [ValueError("No Public Key")], not [KeyError]. *)
Lemma C8_encrypt_raises_ValueError :
  BFV.encrypt demo_engine (mkPlaintext [3; 2] ∅) [-1; 0] [0; 0] [0; 0]
  = Raise (ValueError "No Public Key")
  ∧ BFV.encrypt demo_engine (mkPlaintext [3; 2] ∅) [-1; 0] [0; 0] [0; 0]
    ≠ Raise KeyError.
Proof. split; [reflexivity|discriminate]. Qed.

Lemma add_returns_length R a b :
  length a = length b → - 2 ^ 63 <= ring_q R < 2 ^ 63 →
  ∃ r, Ring.add R a b = Ok r ∧ length r = length a.
Proof.
  intros Hl Hfit. unfold Ring.add. rewrite broadcast2_same by exact Hl.
  cbn [rbind]. unfold Ring.mod_q. rewrite astype_int64_ok by exact Hfit.
  cbn [rbind]. eexists. split; [reflexivity|].
  rewrite length_map. apply length_tabulate.
Qed.

(** C8, amended: without a public key [encrypt] fails with
    [ValueError("No Public Key")], whatever its other inputs; with a public
    key installed it returns a size-2 ciphertext, for key components, a
    plaintext and sampler draws of length [N >= 1], on every engine whose
    modulus is positive and fits a signed 64-bit word ([0 < q < 2^63]). *)
Theorem C8_encrypt_needs_public_key
    (E : BFVScheme) (pt : Plaintext) (u g1 g2 : list Z) :
  (public_key E = None →
   BFV.encrypt E pt u g1 g2 = Raise (ValueError "No Public Key"))
  ∧ (∀ pk0 pk1,
       public_key E = Some (pk0, pk1) →
       scheme_ok E → (0 < N E)%nat → 0 < q E < 2 ^ 63 →
       length pk0 = N E → length pk1 = N E → length (pt_poly pt) = N E →
       length u = N E → length g1 = N E → length g2 = N E →
       ∃ ct, BFV.encrypt E pt u g1 g2 = Ok ct ∧ size ct = 2%nat).
Proof.
  split.
  - intros H. unfold BFV.encrypt. rewrite H. reflexivity.
  - intros pk0 pk1 Hpk [Hring _] HN Hq H0 H1 Hm Hu Hg1 Hg2.
    unfold BFV.encrypt. rewrite Hpk, Hring.
    rewrite (mul_spec (mkRing (N E) (q E)) pk0 u)
      by (simpl; first [assumption | lia]).
    cbn [rbind].
    edestruct (add_returns_length (mkRing (N E) (q E))) as (c0 & Hc0 & Hl0);
      [| |rewrite Hc0];
      [rewrite length_tabulate, length_sample_bounded; symmetry; exact Hg1
      |simpl; lia|].
    cbn [rbind]. rewrite length_tabulate in Hl0.
    rewrite (mul_scalar_spec (mkRing (N E) (q E))) by (simpl; lia).
    cbn [rbind].
    edestruct (add_returns_length (mkRing (N E) (q E)) c0) as (c0' & Hc0' & _);
      [| |rewrite Hc0'];
      [rewrite length_tabulate, Hl0; symmetry; exact Hm|simpl; lia|].
    cbn [rbind].
    rewrite (mul_spec (mkRing (N E) (q E)) pk1 u)
      by (simpl; first [assumption | lia]).
    cbn [rbind].
    edestruct (add_returns_length (mkRing (N E) (q E))) as (c1 & Hc1 & _);
      [| |rewrite Hc1];
      [rewrite length_tabulate, length_sample_bounded; symmetry; exact Hg2
      |simpl; lia|].
    cbn [rbind]. eexists. split; reflexivity.
Qed.

Lemma C8_encrypt_needs_public_key_witness :
  BFV.encrypt demo_engine (mkPlaintext [3; 2] ∅) [-1; 0] [-3; 25] [2; -1]
  = Raise (ValueError "No Public Key")
  ∧ (∃ ct, BFV.encrypt keyed_engine (mkPlaintext [3; 2] ∅) [-1; 0] [-3; 25] [2; -1]
           = Ok ct ∧ size ct = 2%nat).
Proof.
  split.
  - apply (proj1 (C8_encrypt_needs_public_key demo_engine (mkPlaintext [3; 2] ∅)
                    [-1; 0] [-3; 25] [2; -1])). reflexivity.
  - apply (proj2 (C8_encrypt_needs_public_key keyed_engine (mkPlaintext [3; 2] ∅)
                    [-1; 0] [-3; 25] [2; -1]) [0; 0] [0; 0]);
      try reflexivity; try (vm_compute; easy); try (simpl; lia).
Defined.

(** ** C2: the middle tensor component *)





(** ** C4: relinearization *)





(** ** C6: the parameter selector *)

Lemma in_range_step2 a b i :
  In i (range_step2 a b) ↔
  ∃ k : nat, (k < Z.to_nat ((b - a + 1) / 2))%nat ∧ i = a + 2 * Z.of_nat k.
Proof.
  unfold range_step2. rewrite in_map_iff. split.
  - intros (k & <- & Hk). apply in_seq in Hk. exists k. split; [lia|reflexivity].
  - intros (k & Hk & ->). exists k. split; [reflexivity|]. apply in_seq. lia.
Qed.

(** The trial divisors are exactly the odd numbers from 3 to the root. *)
Lemma in_trial_range r i :
  In i (range_step2 3 (r + 1)) ↔ 3 <= i <= r ∧ i mod 2 = 1.
Proof.
  rewrite in_range_step2.
  replace (r + 1 - 3 + 1) with (r - 1) by lia.
  pose proof (Z.div_mod (r - 1) 2 ltac:(lia)) as Hd.
  pose proof (Z.mod_pos_bound (r - 1) 2 ltac:(lia)) as Hm.
  split.
  - intros (k & Hk & ->). split; [lia|].
    replace (3 + 2 * Z.of_nat k) with (1 + (Z.of_nat k + 1) * 2) by lia.
    rewrite Z.mod_add by lia. reflexivity.
  - intros [Hi Hodd].
    pose proof (Z.div_mod i 2 ltac:(lia)) as Hdi.
    exists (Z.to_nat ((i - 3) / 2)).
    pose proof (Z.div_mod (i - 3) 2 ltac:(lia)) as Hd3.
    assert (Hm3 : (i - 3) mod 2 = 0).
    { replace (i - 3) with (i + (-2) * 2 + 1) by lia.
      rewrite <- Z.add_mod_idemp_l, Z.mod_add, Hodd by lia. reflexivity. }
    split; lia.
Qed.

Lemma trial_prime_sound n : 1 < n → trial_prime n = true → Z.prime n.
Proof.
  intros Hn Hp. unfold trial_prime in Hp.
  destruct (Z.eqb_spec (n mod 2) 0) as [|Hodd]; [discriminate|].
  rewrite forallb_forall in Hp.
  split; [exact Hn|]. intros d Hd (e & He).
  assert (He1 : 1 < e) by nia.
  set (c := Z.min d e).
  assert (Hc1 : 1 < c) by (unfold c; lia).
  assert (Hcc : c * c <= n) by (unfold c; nia).
  assert (Hcn : (c | n)).
  { unfold c. destruct (Z.min_spec d e) as [[_ ->]|[_ ->]].
    - exists e. exact He.
    - exists d. lia. }
  assert (Hcodd : c mod 2 = 1).
  { pose proof (Z.mod_pos_bound c 2 ltac:(lia)).
    destruct (decide (c mod 2 = 0)) as [H0|]; [|lia].
    exfalso. apply Hodd. apply Z.mod_divide; [lia|].
    apply Z.divide_trans with c; [|exact Hcn].
    apply Z.mod_divide; [lia|exact H0]. }
  assert (Hc3 : 3 <= c).
  { destruct (decide (c = 2)) as [->|]; [discriminate|lia]. }
  assert (Hin : In c (range_step2 3 (Z.sqrt n + 1))).
  { apply in_trial_range. split; [|exact Hcodd].
    split; [exact Hc3|]. apply Z.sqrt_le_square; lia. }
  specialize (Hp c Hin).
  apply Z.mod_divide in Hcn; [|lia]. rewrite Hcn in Hp. discriminate.
Qed.

Lemma trial_prime_complete n : Z.prime n → n ≠ 2 → trial_prime n = true.
Proof.
  intros [Hge Hp] Hn2.
  unfold trial_prime. destruct (Z.eqb_spec (n mod 2) 0) as [H0|Hodd].
  - exfalso. apply Z.mod_divide in H0; [|lia]. apply (Hp 2); [lia|exact H0].
  - apply forallb_forall. intros i Hi.
    apply in_trial_range in Hi as [[Hi3 His] _].
    pose proof (Z.sqrt_lt_lin n ltac:(lia)) as Hlt.
    destruct (Z.eqb_spec (n mod i) 0) as [H0|]; [|reflexivity].
    exfalso. apply Z.mod_divide in H0; [|lia]. apply (Hp i); [lia|exact H0].
Qed.

Lemma forallb_false_exists {A} (f : A → bool) l :
  forallb f l = false → ∃ x, In x l ∧ f x = false.
Proof.
  induction l as [|x l IH]; simpl; [discriminate|].
  destruct (f x) eqn:Hx; simpl.
  - intros H. destruct (IH H) as (y & Hy & Hfy). exists y. split; [right|]; assumption.
  - intros _. exists x. split; [left; reflexivity|exact Hx].
Qed.

Lemma float_overflow_pos : 0 < float_overflow.
Proof. vm_compute. reflexivity. Qed.

Lemma int_root_in_range fsqrt n :
  0 <= n < float_overflow → int_root fsqrt n = Ok (fsqrt n).
Proof.
  intros Hn. unfold int_root. pose proof float_overflow_pos as Hpos.
  destruct (Z.leb_spec float_overflow n); [lia|].
  destruct (Z.leb_spec n (- float_overflow)); [lia|].
  destruct (Z.ltb_spec n 0); [lia|]. reflexivity.
Qed.

(** With an accurate root, [is_prime] is exact trial division. *)
Lemma is_prime_exact fsqrt n :
  3 <= n < float_overflow → root_ok fsqrt n →
  is_prime fsqrt n = Ok (trial_prime n).
Proof.
  intros Hn [Hlo Hhi]. unfold is_prime.
  destruct (Z.eqb_spec (n mod 2) 0) as [H0|Hodd].
  { unfold trial_prime. rewrite H0. reflexivity. }
  rewrite int_root_in_range by lia. cbn [rbind]. f_equal.
  destruct (trial_prime n) eqn:Ht.
  - apply trial_prime_sound in Ht as [_ Hp]; [|lia].
    apply forallb_forall. intros i Hi.
    apply in_trial_range in Hi as [[Hi3 Hir] _].
    destruct (Z.eqb_spec (n mod i) 0) as [H0|]; [|reflexivity].
    exfalso. apply Z.mod_divide in H0; [|lia]. apply (Hp i); [lia|exact H0].
  - unfold trial_prime in Ht.
    destruct (Z.eqb_spec (n mod 2) 0); [contradiction|].
    apply forallb_false_exists in Ht as (i & Hi & Hfi).
    apply in_trial_range in Hi as [[Hi3 His] Hiodd].
    destruct (forallb (fun i0 => negb (n mod i0 =? 0)) (range_step2 3 (fsqrt n + 1)))
      eqn:Hall; [|reflexivity].
    rewrite forallb_forall in Hall. rewrite <- Hfi. symmetry. apply Hall.
    apply in_trial_range. split; [lia|exact Hiodd].
Qed.

(** Outside the float range the root of an odd number is not computed. *)
Lemma is_prime_overflow fsqrt n :
  n mod 2 ≠ 0 → float_overflow <= n → is_prime fsqrt n = Raise OverflowError.
Proof.
  intros Hodd Hn. unfold is_prime, int_root.
  destruct (Z.eqb_spec (n mod 2) 0); [contradiction|].
  destruct (Z.leb_spec float_overflow n); [reflexivity|lia].
Qed.

(** The search returns the first candidate that passes trial division, when
    the candidates up to it lie in the float range with an accurate root. *)
Lemma ntt_search_finds fsqrt (j : nat) : ∀ q m fuel,
  (∀ i, (i <= j)%nat →
        3 <= q + Z.of_nat i * m < float_overflow
        ∧ root_ok fsqrt (q + Z.of_nat i * m)) →
  trial_prime (q + Z.of_nat j * m) = true →
  (∀ i, (i < j)%nat → trial_prime (q + Z.of_nat i * m) = false) →
  (j < fuel)%nat →
  ntt_search fsqrt fuel q m = Ok (Some (q + Z.of_nat j * m)).
Proof.
  induction j as [|j IH]; intros q m fuel Hc Hp Hf Hfuel;
    (destruct fuel as [|fuel]; [lia|]); cbn [ntt_search].
  - destruct (Hc 0%nat ltac:(lia)) as [Hr Hok].
    replace (q + Z.of_nat 0 * m) with q in * by lia.
    rewrite (is_prime_exact fsqrt q Hr Hok), Hp. reflexivity.
  - destruct (Hc 0%nat ltac:(lia)) as [Hr Hok].
    pose proof (Hf 0%nat ltac:(lia)) as Hf0.
    replace (q + Z.of_nat 0 * m) with q in * by lia.
    rewrite (is_prime_exact fsqrt q Hr Hok), Hf0. cbn [rbind].
    replace (q + Z.of_nat (S j) * m) with (q + m + Z.of_nat j * m) in * by lia.
    apply IH; [| exact Hp | | lia].
    + intros i Hi. specialize (Hc (S i) ltac:(lia)).
      replace (q + Z.of_nat (S i) * m) with (q + m + Z.of_nat i * m) in Hc by lia.
      exact Hc.
    + intros i Hi. specialize (Hf (S i) ltac:(lia)).
      replace (q + Z.of_nat (S i) * m) with (q + m + Z.of_nat i * m) in Hf by lia.
      exact Hf.
Qed.

(** The first index at which a boolean sequence is true. *)
Lemma least_true (j0 : nat) : ∀ f : nat → bool,
  f j0 = true →
  ∃ j, (j <= j0)%nat ∧ f j = true ∧ ∀ i, (i < j)%nat → f i = false.
Proof.
  induction j0 as [|j0 IH]; intros f H.
  - exists 0%nat. split; [lia|]. split; [exact H|]. intros; lia.
  - destruct (f 0%nat) eqn:H0.
    + exists 0%nat. split; [lia|]. split; [exact H0|]. intros; lia.
    + destruct (IH (fun i => f (S i)) H) as (j & Hj & Hfj & Hlt).
      exists (S j). split; [lia|]. split; [exact Hfj|].
      intros [|i] Hi; [exact H0|]. apply Hlt. lia.
Qed.

(** *** Primes congruent to 1 modulo a power of two *)

Lemma exists_prime_divisor_bounded (k : nat) : ∀ n,
  1 < n <= Z.of_nat k → ∃ p, Z.prime p ∧ (p | n).
Proof.
  induction k as [|k IH]; intros n Hn; [lia|].
  destruct (prime_dec n) as [Hp|Hnp].
  - exists n. split; [apply prime_alt, Hp|apply Z.divide_refl].
  - destruct (not_prime_divide n ltac:(lia) Hnp) as (d & Hd & Hdn).
    destruct (IH d ltac:(lia)) as (p & Hp & Hpd).
    exists p. split; [exact Hp|]. apply Z.divide_trans with d; assumption.
Qed.

Lemma odd_part (k : nat) : ∀ g,
  0 < g <= Z.of_nat k → ∃ (j : nat) r, g = 2 ^ Z.of_nat j * r ∧ r mod 2 = 1.
Proof.
  induction k as [|k IH]; intros g Hg; [lia|].
  pose proof (Z.div_mod g 2 ltac:(lia)) as Hd.
  pose proof (Z.mod_pos_bound g 2 ltac:(lia)) as Hm.
  destruct (decide (g mod 2 = 1)) as [Hodd|Heven].
  - exists 0%nat, g. split; [simpl; lia|exact Hodd].
  - destruct (IH (g / 2) ltac:(lia)) as (j & r & Hj & Hr).
    exists (S j), r. split; [|exact Hr].
    rewrite Nat2Z.inj_succ, Z.pow_succ_r by lia. lia.
Qed.
Lemma zfact_pos n : 0 < zfact n.
Proof. induction n as [|n IH]; cbn [zfact]; lia. Qed.

Lemma zfact_divide n d : 1 <= d <= Z.of_nat n → (d | zfact n).
Proof.
  induction n as [|n IH]; intros Hd; [lia|]. cbn [zfact].
  destruct (decide (d = Z.of_nat (S n))) as [->|Hne].
  - apply Z.divide_factor_l.
  - apply Z.divide_mul_r, IH. lia.
Qed.

(** Beyond every bound [M] lies a prime [p = 1 (mod 2^e)]: any prime divisor
    of [x^(2^(e-1)) + 1] with [x = max(M, 2)!], by Fermat's little theorem. *)
Lemma prime_in_progression (e M : Z) :
  1 <= e → ∃ p, Z.prime p ∧ p mod 2 ^ e = 1 ∧ M < p.
Proof.
  intros He.
  set (b := Z.to_nat (Z.max M 2)).
  set (x := zfact b).
  set (h := 2 ^ (e - 1)).
  assert (Hh : 1 <= h).
  { unfold h. pose proof (Z.pow_pos_nonneg 2 (e - 1) ltac:(lia) ltac:(lia)). lia. }
  assert (Hx : 2 <= x).
  { apply Z.divide_pos_le; [apply zfact_pos|]. apply zfact_divide. unfold b. lia. }
  pose proof (Z.pow_pos_nonneg x h ltac:(lia) ltac:(lia)) as Hxh0.
  destruct (exists_prime_divisor_bounded (Z.to_nat (x ^ h + 1)) (x ^ h + 1) ltac:(lia))
    as (p & Hp & Hpn).
  pose proof (Z.prime_ge_2 p Hp) as Hp2.
  assert (Hpx : ¬ (p | x)).
  { intros Hd.
    assert (Hd' : (p | x ^ h)).
    { apply Z.divide_trans with x; [exact Hd|]. apply Z.divide_pow_same_r. lia. }
    assert (H1 : (p | 1)).
    { replace 1 with (x ^ h + 1 - x ^ h) by lia. apply Z.divide_sub_r; assumption. }
    apply Z.divide_1_r in H1. lia. }
  assert (HpM : Z.max M 2 < p).
  { destruct (Z.lt_ge_cases (Z.max M 2) p) as [|Hle]; [assumption|].
    exfalso. apply Hpx. apply zfact_divide. unfold b. lia. }
  assert (Hm1 : (-1) mod p = p - 1).
  { replace (-1) with (p - 1 + (-1) * p) by lia.
    rewrite Z.mod_add by lia. apply Z.mod_small. lia. }
  assert (Hxh : x ^ h mod p = p - 1).
  { destruct Hpn as [c Hc]. replace (x ^ h) with (-1 + c * p) by lia.
    rewrite Z.mod_add by lia. exact Hm1. }
  assert (Hferm : x ^ (p - 1) mod p = 1).
  { apply Z.fermat_nz; [exact Hp|]. rewrite Z.mod_divide by lia. exact Hpx. }
  destruct (odd_part (Z.to_nat (p - 1)) (p - 1) ltac:(lia)) as (j & r & Hj & Hr).
  pose proof (Z.pow_pos_nonneg 2 (Z.of_nat j) ltac:(lia) ltac:(lia)) as H2j.
  assert (Hr0 : 0 < r) by nia.
  destruct (Z.lt_ge_cases (Z.of_nat j) e) as [Hlt|Hge].
  - exfalso.
    pose proof (Z.pow_pos_nonneg 2 (e - 1 - Z.of_nat j) ltac:(lia) ltac:(lia)) as H2e.
    assert (Hhr : (p - 1) * 2 ^ (e - 1 - Z.of_nat j) = h * r).
    { rewrite Hj. unfold h.
      replace (e - 1) with (Z.of_nat j + (e - 1 - Z.of_nat j)) at 2 by lia.
      rewrite Z.pow_add_r by lia. ring. }
    assert (H1 : x ^ (h * r) mod p = 1).
    { rewrite <- Hhr, Z.pow_mul_r by lia.
      rewrite <- Z.mod_pow_l, Hferm, Z.pow_1_l by lia. apply Z.mod_small. lia. }
    assert (H2 : x ^ (h * r) mod p = p - 1).
    { rewrite Z.pow_mul_r by lia.
      rewrite <- Z.mod_pow_l, Hxh, <- Hm1, Z.mod_pow_l.
      assert (Hpow : (-1) ^ r = -1).
      { change (-1) with (- (1)). rewrite Z.pow_opp_odd.
        - rewrite Z.pow_1_l by lia. reflexivity.
        - exists (r / 2). pose proof (Z.div_mod r 2 ltac:(lia)). lia. }
      rewrite Hpow. reflexivity. }
    lia.
  - exists p. split; [exact Hp|]. split; [|lia].
    assert (Hpe : p = 1 + 2 ^ (Z.of_nat j - e) * r * 2 ^ e).
    { replace (Z.of_nat j) with (Z.of_nat j - e + e) in Hj at 1 by lia.
      rewrite Z.pow_add_r in Hj by lia. lia. }
    pose proof (Z.pow_le_mono_r 2 1 e ltac:(lia) ltac:(lia)) as H2e.
    rewrite Hpe, Z.mod_add by lia. apply Z.mod_small. lia.
Qed.

(** The first candidate when [2N] divides [2^q_bits]. *)
Lemma ntt_first_candidate (k : nat) (q_bits : Z) :
  Z.of_nat k + 1 <= q_bits →
  2 * Z.of_nat (2 ^ k) = 2 ^ (Z.of_nat k + 1)
  ∧ 2 ^ q_bits = 2 ^ (q_bits - (Z.of_nat k + 1)) * (2 * Z.of_nat (2 ^ k))
  ∧ 2 ^ q_bits / (2 * Z.of_nat (2 ^ k)) * (2 * Z.of_nat (2 ^ k)) + 1 = 2 ^ q_bits + 1.
Proof.
  intros Hk.
  assert (Hm : 2 * Z.of_nat (2 ^ k) = 2 ^ (Z.of_nat k + 1)).
  { rewrite Nat2Z.inj_pow, Z.pow_add_r by lia. simpl (Z.of_nat 2). lia. }
  assert (Hq : 2 ^ q_bits = 2 ^ (q_bits - (Z.of_nat k + 1)) * (2 * Z.of_nat (2 ^ k))).
  { rewrite Hm, <- Z.pow_add_r by lia. f_equal. lia. }
  split; [exact Hm|]. split; [exact Hq|].
  rewrite Hq at 1. rewrite Z.div_mul; [lia|].
  rewrite Hm. apply Z.pow_nonzero; lia.
Qed.

(** C6, as stated, fails: the base engine (and the accelerated engine without
    its compiled multiplier) selects [q = 2^q_bits - 1].  For [N = 2] and
    [q_bits = 4] this is 15, neither prime nor congruent to 1 mod [2N]. *)
Lemma C6_base_modulus_not_prime :
  ∃ E, BFVScheme_init 2 4 4 3 = Ok E ∧ q E = 15 ∧
       accelerated_q Z.sqrt false 0 2 4 = Some 15 ∧
       ¬ Z.prime 15 ∧ 15 mod (2 * 2) ≠ 1.
Proof.
  eexists. split; [reflexivity|]. split; [reflexivity|].
  split; [reflexivity|]. split; [|discriminate].
  intros [_ Hp]. apply (Hp 3); [lia|]. exists 5. reflexivity.
Qed.

(** The search itself returns 1 when [2^q_bits < 2N], because [is_prime]
    accepts 1. *)
Lemma find_ntt_prime_small_start :
  find_ntt_prime Z.sqrt 1 (Z.shiftl 1 2) 4 = Ok (Some 1) ∧ ¬ Z.prime 1.
Proof. split; [reflexivity|exact Z.not_prime_1]. Qed.

(** C6, amended: for [N = 2^k] and [2N <= 2^q_bits], the candidates
    [2^q_bits + 1 + j * 2N], [j = 0, 1, ...], contain a first prime [p]; it
    satisfies [p = 1 (mod 2N)] and [p >= 2^(q_bits - 1)].  The accelerated
    engine with its compiled multiplier selects [q = p] when [p] lies in the
    float range (below [2^1024 - 2^970]) and the rounded root [int(n**0.5)]
    is accurate (at least the integer square root, and below [n]) on the
    candidates up to [p].  When [2^q_bits] is beyond the float range, the
    first test raises [OverflowError], which the constructor catches, and
    the engine keeps [q = 2^q_bits - 1]; so it does without the multiplier. *)
Theorem C6_ntt_prime_selection (fsqrt : Z → Z) (k : nat) (q_bits : Z) :
  Z.of_nat k + 1 <= q_bits →
  let N := (2 ^ k)%nat in
  let cand := fun j : nat => 2 ^ q_bits + 1 + Z.of_nat j * (2 * Z.of_nat N) in
  (∃ j : nat,
     Z.prime (cand j) ∧ (∀ i, (i < j)%nat → ¬ Z.prime (cand i))
     ∧ cand j mod (2 * Z.of_nat N) = 1 ∧ 2 ^ (q_bits - 1) <= cand j
     ∧ (cand j < float_overflow →
        (∀ i, (i <= j)%nat → root_ok fsqrt (cand i)) →
        ∀ fuel, (j < fuel)%nat →
                accelerated_q fsqrt true fuel N q_bits = Some (cand j)))
  ∧ (float_overflow <= 2 ^ q_bits →
     ∀ fuel, (0 < fuel)%nat →
             accelerated_q fsqrt true fuel N q_bits = Some (2 ^ q_bits - 1))
  ∧ (∀ fuel, accelerated_q fsqrt false fuel N q_bits = Some (2 ^ q_bits - 1)).
Proof.
  intros Hk N cand.
  destruct (ntt_first_candidate k q_bits Hk) as (Hm & Hq & Hfirst).
  fold N in Hm, Hq, Hfirst.
  set (m := 2 * Z.of_nat N) in *.
  assert (Hm2 : 2 <= m).
  { rewrite Hm. apply (Z.pow_le_mono_r 2 1 (Z.of_nat k + 1)); lia. }
  assert (Hpow : 2 <= 2 ^ q_bits).
  { apply (Z.pow_le_mono_r 2 1 q_bits); lia. }
  assert (Hhalf : 2 ^ (q_bits - 1) <= 2 ^ q_bits).
  { apply Z.pow_le_mono_r; lia. }
  assert (Hacc : ∀ fuel,
    accelerated_q fsqrt true fuel N q_bits
    = match ntt_search fsqrt fuel (2 ^ q_bits + 1) m with
      | Ok (Some q) => Some q
      | Ok None => None
      | Raise _ => Some (2 ^ q_bits - 1)
      end).
  { intros fuel. unfold accelerated_q, find_ntt_prime. fold m.
    rewrite Z.shiftl_1_l, py_floordiv_nz by lia. cbn [rbind].
    rewrite Hfirst. reflexivity. }
  assert (Hcand : ∀ j : nat, cand j mod m = 1).
  { intros j. unfold cand. fold m. rewrite Hq.
    replace (2 ^ (q_bits - (Z.of_nat k + 1)) * m + 1 + Z.of_nat j * m)
      with (1 + (2 ^ (q_bits - (Z.of_nat k + 1)) + Z.of_nat j) * m) by lia.
    rewrite Z.mod_add by lia. apply Z.mod_small. lia. }
  assert (Hge : ∀ j : nat, 2 ^ q_bits + 1 <= cand j).
  { intros j. unfold cand. fold m. assert (0 <= Z.of_nat j * m) by nia. lia. }
  split_and!.
  - destruct (prime_in_progression (Z.of_nat k + 1) (2 ^ q_bits) ltac:(lia))
      as (p & Hp & Hpm & Hlt).
    rewrite <- Hm in Hpm.
    pose proof (Z.div_mod (p - 1 - 2 ^ q_bits) m ltac:(lia)) as Hd.
    assert (Hrem : (p - 1 - 2 ^ q_bits) mod m = 0).
    { rewrite Hq.
      replace (p - 1 - 2 ^ (q_bits - (Z.of_nat k + 1)) * m)
        with (p - 1 + (- 2 ^ (q_bits - (Z.of_nat k + 1))) * m) by lia.
      rewrite Z.mod_add by lia.
      rewrite <- Zminus_mod_idemp_l, Hpm. reflexivity. }
    assert (Hj0 : 0 <= (p - 1 - 2 ^ q_bits) / m) by (apply Z.div_pos; lia).
    assert (Hp0 : trial_prime (cand (Z.to_nat ((p - 1 - 2 ^ q_bits) / m))) = true).
    { unfold cand. fold m. rewrite Z2Nat.id by exact Hj0.
      replace (2 ^ q_bits + 1 + (p - 1 - 2 ^ q_bits) / m * m) with p by lia.
      apply trial_prime_complete; [exact Hp|lia]. }
    destruct (least_true _ (fun j => trial_prime (cand j)) Hp0)
      as (j & _ & Hpj & Hleast).
    exists j. split_and!.
    + apply trial_prime_sound; [pose proof (Hge j); lia|exact Hpj].
    + intros i Hi Hprime. specialize (Hleast i Hi). cbn beta in Hleast.
      rewrite trial_prime_complete in Hleast;
        [discriminate|exact Hprime|pose proof (Hge i); lia].
    + apply Hcand.
    + pose proof (Hge j). lia.
    + intros Hfl Hroot fuel Hfuel. rewrite Hacc.
      rewrite (ntt_search_finds fsqrt j (2 ^ q_bits + 1) m fuel); try assumption.
      * reflexivity.
      * intros i Hi. fold (cand i). split; [|apply Hroot, Hi].
        pose proof (Hge i).
        assert (cand i <= cand j).
        { unfold cand. fold m. assert (Z.of_nat i * m <= Z.of_nat j * m) by nia. lia. }
        lia.
  - intros Hover fuel Hfuel. rewrite Hacc.
    destruct fuel as [|fuel]; [lia|]. cbn [ntt_search].
    rewrite is_prime_overflow; [reflexivity| |lia].
    replace (2 ^ q_bits + 1) with (1 + 2 ^ (q_bits - 1) * 2).
    + rewrite Z.mod_add by lia. discriminate.
    + replace q_bits with (q_bits - 1 + 1) at 2 by lia.
      rewrite Z.pow_add_r by lia. lia.
  - intros fuel. unfold accelerated_q. rewrite Z.shiftl_1_l. reflexivity.
Qed.

Lemma C6_ntt_prime_selection_witness :
  (∃ j : nat,
     Z.prime (2 ^ 4 + 1 + Z.of_nat j * (2 * Z.of_nat 2))
     ∧ (∀ i, (i < j)%nat → ¬ Z.prime (2 ^ 4 + 1 + Z.of_nat i * (2 * Z.of_nat 2)))
     ∧ (2 ^ 4 + 1 + Z.of_nat j * (2 * Z.of_nat 2)) mod (2 * Z.of_nat 2) = 1
     ∧ 2 ^ (4 - 1) <= 2 ^ 4 + 1 + Z.of_nat j * (2 * Z.of_nat 2)
     ∧ (2 ^ 4 + 1 + Z.of_nat j * (2 * Z.of_nat 2) < float_overflow →
        (∀ i, (i <= j)%nat →
              root_ok Z.sqrt (2 ^ 4 + 1 + Z.of_nat i * (2 * Z.of_nat 2))) →
        ∀ fuel, (j < fuel)%nat →
                accelerated_q Z.sqrt true fuel 2 4
                = Some (2 ^ 4 + 1 + Z.of_nat j * (2 * Z.of_nat 2))))
  ∧ (float_overflow <= 2 ^ 4 →
     ∀ fuel, (0 < fuel)%nat → accelerated_q Z.sqrt true fuel 2 4 = Some (2 ^ 4 - 1))
  ∧ (∀ fuel, accelerated_q Z.sqrt false fuel 2 4 = Some (2 ^ 4 - 1)).
Proof.
  apply (C6_ntt_prime_selection Z.sqrt 1 4). simpl. lia.
Defined.

(** * Further properties *)

(** ** The ring [Z_q[X]/(X^N + 1)] *)

Lemma land_pred_zero n :
  0 < n → (Z.land n (n - 1) = 0 ↔ n = 2 ^ Z.log2 n).
Proof.
  intros Hn. pose proof (Z.log2_spec n Hn) as Hlog.
  pose proof (Z.log2_nonneg n) as Hk. split.
  - intros Hland. destruct (decide (n = 2 ^ Z.log2 n)) as [|Hne]; [assumption|].
    exfalso.
    assert (Hlog' : Z.log2 (n - 1) = Z.log2 n).
    { apply Z.log2_unique; [exact Hk|]. unfold Z.succ in Hlog. lia. }
    pose proof (Z.bit_log2 n Hn) as Hb.
    pose proof (Z.bit_log2 (n - 1) ltac:(pose proof (Z.pow_pos_nonneg 2 (Z.log2 n)
                  ltac:(lia) Hk); unfold Z.succ in Hlog; lia)) as Hb'.
    rewrite Hlog' in Hb'.
    pose proof (Z.land_spec n (n - 1) (Z.log2 n)) as Hs.
    rewrite Hland, Z.bits_0, Hb, Hb' in Hs. discriminate.
  - intros Heq. remember (Z.log2 n) as k eqn:Ek. clear Ek Hlog. subst n.
    replace (2 ^ k - 1) with (Z.ones k) by (rewrite Z.ones_equiv; lia).
    rewrite Z.land_ones by exact Hk. apply Z.mod_same. lia.
Qed.

(** The constructor of [PolynomialRing] accepts exactly the degrees 0 and
    [2^k]; the ring it returns stores [N] and [q] unchanged. *)
Theorem PolynomialRing_init_accepts (N : nat) (q : Z) :
  (PolynomialRing_init N q = Ok (mkRing N q) ↔ N = 0%nat ∨ ∃ k : nat, N = (2 ^ k)%nat)
  ∧ (∀ R, PolynomialRing_init N q = Ok R → R = mkRing N q)
  ∧ (PolynomialRing_init N q ≠ Ok (mkRing N q) →
     PolynomialRing_init N q = Raise (ValueError "N must be a power of 2")).
Proof.
  unfold PolynomialRing_init.
  destruct (Z.eqb_spec (Z.land (Z.of_nat N) (Z.of_nat N - 1)) 0) as [H0|Hne].
  - split_and!; [|intros R [= <-]; reflexivity|congruence].
    split; [intros _|reflexivity].
    destruct (decide (N = 0%nat)) as [|Hpos]; [left; assumption|right].
    apply land_pred_zero in H0; [|lia].
    exists (Z.to_nat (Z.log2 (Z.of_nat N))). apply Nat2Z.inj.
    rewrite Nat2Z.inj_pow, Z2Nat.id by apply Z.log2_nonneg. exact H0.
  - split_and!; [|discriminate|reflexivity].
    split; [discriminate|]. intros [->|[k ->]]; exfalso; apply Hne.
    + reflexivity.
    + assert (Hp : 0 < Z.of_nat (2 ^ k)).
      { rewrite Nat2Z.inj_pow. apply Z.pow_pos_nonneg; lia. }
      apply land_pred_zero; [exact Hp|].
      rewrite Nat2Z.inj_pow. simpl (Z.of_nat 2).
      rewrite Z.log2_pow2 by lia. reflexivity.
Qed.

Lemma zsum_single n f j :
  (j < n)%nat → (∀ i, (i < n)%nat → i ≠ j → f i = 0) → zsum n f = f j.
Proof.
  induction n as [|n IH]; intros Hj H; [lia|]. simpl.
  destruct (decide (j = n)) as [->|Hne].
  - rewrite zsum_zero by (intros; apply H; lia). lia.
  - rewrite IH, (H n) by (try lia; intros; apply H; lia). lia.
Qed.

Section NegacyclicRing.

Variable N : nat.
Hypothesis HN : (0 < N)%nat.

Lemma ncoef_comm x y k : ncoef N x y k = ncoef N y x k.
Proof.
  unfold ncoef.
  set (g := fun w : Z => ext N x w * ext N y (Z.of_nat k - w)).
  assert (Hper : ∀ w, g (w + Z.of_nat N) = g w).
  { intros w. unfold g.
    replace (Z.of_nat k - (w + Z.of_nat N)) with (Z.of_nat k - w - Z.of_nat N) by lia.
    rewrite ext_shift, (ext_unshift N HN) by assumption. lia. }
  transitivity (zsum N (fun i => g (Z.of_nat i))).
  { apply zsum_ext. intros i Hi. unfold g. rewrite (ext_small N x) by lia.
    rewrite Nat2Z.id. reflexivity. }
  rewrite <- (zsum_reflect_periodic N g (Z.of_nat k) Hper).
  apply zsum_ext. intros j Hj. unfold g.
  replace (Z.of_nat k - (Z.of_nat k - Z.of_nat j)) with (Z.of_nat j) by lia.
  rewrite (ext_small N y (Z.of_nat j)) by lia. rewrite Nat2Z.id. lia.
Qed.

Lemma ncoef_ext_r x y y' k :
  (∀ i, (i < N)%nat → y i = y' i) → ncoef N x y k = ncoef N x y' k.
Proof.
  intros H. rewrite (ncoef_comm x y), (ncoef_comm x y').
  apply (ncoef_ext_l N), H.
Qed.

Lemma ncoef_eqm_r q x y y' k :
  (∀ i, (i < N)%nat → eqm q (y i) (y' i)) →
  eqm q (ncoef N x y k) (ncoef N x y' k).
Proof.
  intros H. rewrite (ncoef_comm x y), (ncoef_comm x y').
  apply (ncoef_eqm_l N), H.
Qed.

Lemma ncoef_add_r x y y' k :
  ncoef N x (fun i => y i + y' i) k = ncoef N x y k + ncoef N x y' k.
Proof.
  rewrite (ncoef_comm x), (ncoef_comm x y), (ncoef_comm x y').
  apply (ncoef_add_l N HN).
Qed.

Lemma ncoef_opp_r x y k : ncoef N x (fun i => - y i) k = - ncoef N x y k.
Proof.
  rewrite (ncoef_comm x), (ncoef_comm x y). apply (ncoef_opp_l N HN).
Qed.



Lemma ncoef_assoc a b c k :
  ncoef N (ncoef N a b) c k = ncoef N a (ncoef N b c) k.
Proof.
  rewrite (ncoef_ext_l N _ (ncoef N b a)) by (intros; apply ncoef_comm).
  rewrite (ncoef_swap N HN b a c). apply ncoef_comm.
Qed.

(** Multiplication by [X^j]: a rotation by [j] places, the wrapped
    coefficients negated. *)
Lemma ncoef_monomial x j k :
  (j < N)%nat →
  ncoef N x (fun i => if decide (i = j) then 1 else 0) k
  = ext N x (Z.of_nat k - Z.of_nat j).
Proof.
  intros Hj. rewrite ncoef_comm. unfold ncoef.
  rewrite (zsum_single N _ j Hj).
  - rewrite decide_True by reflexivity. lia.
  - intros i Hi Hne. rewrite decide_False by assumption. lia.
Qed.

End NegacyclicRing.

Lemma poly_ok_coef R a i :
  poly_ok R a → (i < ring_N R)%nat → 0 <= coef a i < ring_q R.
Proof.
  intros [Hl Hr] Hi. apply (Forall_coef (fun x => 0 <= x < ring_q R)); [exact Hr|lia].
Qed.

(** [mul] is commutative: for arrays of the ring degree, [mul(a, b)] and
    [mul(b, a)] are the same result (the same array, or the same error). *)
Theorem mul_commutative (R : PolynomialRing) (a b : list Z) :
  length a = ring_N R → length b = ring_N R →
  Ring.mul R a b = Ring.mul R b a.
Proof.
  intros Ha Hb. destruct (decide (ring_N R = 0%nat)) as [H0|Hpos].
  - rewrite H0 in Ha, Hb. destruct a, b; try discriminate. reflexivity.
  - unfold Ring.mul. rewrite !convolve_spec by lia. cbn [rbind].
    rewrite !negacyclic_convolve by (try assumption; lia). cbn [rbind].
    rewrite (tabulate_ext _ _ (ncoef (ring_N R) (coef b) (coef a))); [reflexivity|].
    intros k _. apply ncoef_comm. lia.
Qed.

Lemma mul_commutative_witness :
  Ring.mul demo_ring [1; 2] [3; 6] = Ring.mul demo_ring [3; 6] [1; 2].
Proof. apply (mul_commutative demo_ring); reflexivity. Defined.

(** [mul] is associative: [mul(mul(a, b), c)] and [mul(a, mul(b, c))] return
    the same array. *)
Theorem mul_associative (R : PolynomialRing) (a b c : list Z) :
  (0 < ring_N R)%nat → 0 < ring_q R <= 2 ^ 63 →
  length a = ring_N R → length b = ring_N R → length c = ring_N R →
  ∃ ab bc r,
    Ring.mul R a b = Ok ab ∧ Ring.mul R b c = Ok bc ∧
    Ring.mul R ab c = Ok r ∧ Ring.mul R a bc = Ok r.
Proof.
  intros HN Hq Ha Hb Hc.
  exists (tabulate (ring_N R) (fun k => ncoef (ring_N R) (coef a) (coef b) k mod ring_q R)),
         (tabulate (ring_N R) (fun k => ncoef (ring_N R) (coef b) (coef c) k mod ring_q R)),
         (tabulate (ring_N R) (fun k =>
            ncoef (ring_N R) (ncoef (ring_N R) (coef a) (coef b)) (coef c) k mod ring_q R)).
  split_and!; try (apply mul_spec; assumption).
  - rewrite mul_spec by (try assumption; apply length_tabulate).
    f_equal. apply tabulate_ext. intros k Hk.
    apply (ncoef_eqm_l (ring_N R)). intros i Hi.
    rewrite coef_tabulate by assumption. apply eqm_mod.
  - rewrite mul_spec by (try assumption; apply length_tabulate).
    f_equal. apply tabulate_ext. intros k Hk.
    rewrite (ncoef_assoc (ring_N R) HN).
    apply (ncoef_eqm_r (ring_N R) HN). intros i Hi.
    rewrite coef_tabulate by assumption. apply eqm_mod.
Qed.

Lemma mul_associative_witness :
  ∃ ab bc r,
    Ring.mul demo_ring [1; 2] [3; 6] = Ok ab ∧ Ring.mul demo_ring [3; 6] [5; 4] = Ok bc ∧
    Ring.mul demo_ring ab [5; 4] = Ok r ∧ Ring.mul demo_ring [1; 2] bc = Ok r.
Proof.
  apply (mul_associative demo_ring [1; 2] [3; 6] [5; 4]);
    try reflexivity; try (vm_compute; easy); try (simpl; lia).
Defined.

(** [mul] distributes over [add]: [mul(a, add(b, c))] and
    [add(mul(a, b), mul(a, c))] return the same array. *)
Theorem mul_add_distributive (R : PolynomialRing) (a b c : list Z) :
  (0 < ring_N R)%nat → ring_q R <= 2 ^ 62 →
  length a = ring_N R → poly_ok R b → poly_ok R c →
  ∃ bc ab ac r,
    Ring.add R b c = Ok bc ∧ Ring.mul R a bc = Ok r ∧
    Ring.mul R a b = Ok ab ∧ Ring.mul R a c = Ok ac ∧ Ring.add R ab ac = Ok r.
Proof.
  intros HN Hq62 Ha Hpb Hpc.
  pose proof (poly_ok_modulus R b Hpb HN) as Hq.
  pose proof Hpb as [Hb _]. pose proof Hpc as [Hc _].
  exists (tabulate (ring_N R) (fun i => (coef b i + coef c i) mod ring_q R)),
         (tabulate (ring_N R) (fun k => ncoef (ring_N R) (coef a) (coef b) k mod ring_q R)),
         (tabulate (ring_N R) (fun k => ncoef (ring_N R) (coef a) (coef c) k mod ring_q R)),
         (tabulate (ring_N R) (fun k =>
            (ncoef (ring_N R) (coef a) (coef b) k
             + ncoef (ring_N R) (coef a) (coef c) k) mod ring_q R)).
  split_and!; try (apply mul_spec; try assumption; lia).
  - apply add_spec; try assumption; [lia|]. intros i Hi.
    pose proof (poly_ok_coef R b i Hpb Hi). pose proof (poly_ok_coef R c i Hpc Hi).
    unfold in_int64. lia.
  - rewrite mul_spec by (try assumption; try apply length_tabulate; lia).
    f_equal. apply tabulate_ext. intros k Hk.
    rewrite <- (ncoef_add_r (ring_N R) HN).
    apply (ncoef_eqm_r (ring_N R) HN). intros i Hi.
    rewrite coef_tabulate by assumption. apply eqm_mod.
  - rewrite (add_spec R _ _ (ring_N R)); rewrite ?length_tabulate; try reflexivity; [|lia|].
    + f_equal. apply tabulate_ext. intros k Hk.
      rewrite !coef_tabulate by assumption.
      change (eqm (ring_q R)
        (ncoef (ring_N R) (coef a) (coef b) k mod ring_q R
         + ncoef (ring_N R) (coef a) (coef c) k mod ring_q R)
        (ncoef (ring_N R) (coef a) (coef b) k + ncoef (ring_N R) (coef a) (coef c) k)).
      rewrite !eqm_mod. reflexivity.
    + intros i Hi. rewrite !coef_tabulate by assumption.
      pose proof (Z.mod_pos_bound (ncoef (ring_N R) (coef a) (coef b) i) (ring_q R) Hq).
      pose proof (Z.mod_pos_bound (ncoef (ring_N R) (coef a) (coef c) i) (ring_q R) Hq).
      unfold in_int64. lia.
Qed.

Lemma mul_add_distributive_witness :
  ∃ bc ab ac r,
    Ring.add demo_ring [3; 6] [5; 4] = Ok bc ∧ Ring.mul demo_ring [1; 2] bc = Ok r ∧
    Ring.mul demo_ring [1; 2] [3; 6] = Ok ab ∧ Ring.mul demo_ring [1; 2] [5; 4] = Ok ac ∧
    Ring.add demo_ring ab ac = Ok r.
Proof.
  apply (mul_add_distributive demo_ring [1; 2] [3; 6] [5; 4]);
    try reflexivity; try (vm_compute; easy); try (simpl; lia);
    (split; [reflexivity|repeat constructor; lia]).
Defined.

(** The product is negacyclic ([X^N = -1]): multiplying [a] by the monomial
    [X^j] moves coefficient [i] to place [i + j], and the coefficients pushed
    past degree [N - 1] re-enter from place 0 with their sign flipped.  With
    [j = 0] the monomial is the unit of the ring. *)
Theorem mul_monomial (R : PolynomialRing) (a : list Z) (j : nat) :
  (j < ring_N R)%nat → 0 < ring_q R <= 2 ^ 63 → length a = ring_N R →
  Ring.mul R a (monomial (ring_N R) j)
  = Ok (tabulate (ring_N R) (fun k =>
          (if decide (j <= k)%nat then coef a (k - j)
           else - coef a (k + ring_N R - j)) mod ring_q R))
  ∧ (poly_ok R a → Ring.mul R a (monomial (ring_N R) 0) = Ok a).
Proof.
  intros Hj Hq Ha.
  assert (Hgen : ∀ i, (i < ring_N R)%nat →
    Ring.mul R a (monomial (ring_N R) i)
    = Ok (tabulate (ring_N R) (fun k =>
            (if decide (i <= k)%nat then coef a (k - i)
             else - coef a (k + ring_N R - i)) mod ring_q R))).
  { intros i Hi. rewrite mul_spec; try assumption; try lia;
      [|apply length_tabulate].
    f_equal. apply tabulate_ext. intros k Hk. f_equal.
    rewrite (ncoef_ext_r (ring_N R) ltac:(lia) _ _
               (fun m => if decide (m = i) then 1 else 0))
      by (intros; apply coef_tabulate; assumption).
    rewrite ncoef_monomial by lia.
    case_decide.
    - rewrite ext_small by lia. f_equal. lia.
    - rewrite ext_neg by lia. do 2 f_equal. lia. }
  split; [apply Hgen, Hj|]. intros Hpa. rewrite Hgen by lia.
  f_equal.
  transitivity (tabulate (ring_N R) (coef a)); [|rewrite <- Ha; apply tabulate_coef].
  apply tabulate_ext. intros k Hk. rewrite decide_True by lia.
  rewrite Nat.sub_0_r. apply Z.mod_small. apply poly_ok_coef; assumption.
Qed.

Lemma mul_monomial_witness :
  Ring.mul demo_ring [3; 5] (monomial 2 1)
  = Ok (tabulate 2 (fun k =>
          (if decide (1 <= k)%nat then coef [3; 5] (k - 1)
           else - coef [3; 5] (k + 2 - 1)) mod 7))
  ∧ (poly_ok demo_ring [3; 5] → Ring.mul demo_ring [3; 5] (monomial 2 0) = Ok [3; 5]).
Proof.
  apply (mul_monomial demo_ring [3; 5] 1);
    try reflexivity; try (vm_compute; easy); try (simpl; lia).
Defined.

(** The additive laws, for a modulus [0 < q <= 2^62]: [add] is commutative,
    [sub(a, b)] is [add(a, neg(b))], [add(a, neg(a))] is the zero polynomial
    and adding the zero polynomial changes nothing. *)
Theorem add_group_laws (R : PolynomialRing) (a b : list Z) :
  0 < ring_q R <= 2 ^ 62 → poly_ok R a → poly_ok R b →
  Ring.add R a b = Ring.add R b a
  ∧ Ring.sub R a b = (let* minus_b := Ring.neg R b in Ring.add R a minus_b)
  ∧ (let* minus_a := Ring.neg R a in Ring.add R a minus_a)
    = Ok (zero_poly (ring_N R))
  ∧ Ring.add R a (zero_poly (ring_N R)) = Ok a.
Proof.
  intros Hq Hpa Hpb.
  pose proof Hpa as [Ha _]. pose proof Hpb as [Hb _].
  assert (Hneg : ∀ x, poly_ok R x →
    Ring.neg R x = Ok (tabulate (ring_N R) (fun i => (- coef x i) mod ring_q R))).
  { intros x Hpx. pose proof Hpx as [Hx _]. rewrite neg_spec, Hx; [reflexivity|lia|].
    intros i Hi. rewrite Hx in Hi. pose proof (poly_ok_coef R x i Hpx Hi).
    unfold in_int64. lia. }
  assert (Hadd : ∀ x y, poly_ok R x → poly_ok R y →
    Ring.add R x y = Ok (tabulate (ring_N R) (fun i => (coef x i + coef y i) mod ring_q R))).
  { intros x y Hpx Hpy. apply add_spec; [apply Hpx|apply Hpy|lia|].
    intros i Hi. pose proof (poly_ok_coef R x i Hpx Hi).
    pose proof (poly_ok_coef R y i Hpy Hi). unfold in_int64. lia. }
  assert (Hpn : ∀ F, poly_ok R (tabulate (ring_N R) (fun i => F i mod ring_q R))).
  { intros F. apply poly_ok_tabulate_mod. lia. }
  split_and!.
  - rewrite !Hadd by assumption. f_equal. apply tabulate_ext. intros. f_equal. lia.
  - rewrite Hneg by assumption. cbn [rbind]. rewrite Hadd by auto.
    rewrite (sub_spec R a b (ring_N R)); try assumption; [|lia|].
    + f_equal. apply tabulate_ext. intros i Hi.
      rewrite coef_tabulate by assumption.
      rewrite Z.add_mod_idemp_r by lia. f_equal.
    + intros i Hi. pose proof (poly_ok_coef R a i Hpa Hi).
      pose proof (poly_ok_coef R b i Hpb Hi). unfold in_int64. lia.
  - rewrite Hneg by assumption. cbn [rbind]. rewrite Hadd by auto.
    f_equal. apply list_eq_coef.
    + unfold zero_poly. rewrite length_tabulate, length_replicate. reflexivity.
    + rewrite length_tabulate. intros i Hi.
      rewrite !coef_tabulate by assumption.
      rewrite Z.add_mod_idemp_r by lia.
      replace (coef a i + - coef a i) with 0 by lia.
      unfold zero_poly, coef. rewrite nth_lookup, lookup_replicate_2 by lia.
      apply Z.mod_0_l. lia.
  - assert (Hz : poly_ok R (zero_poly (ring_N R))).
    { split; [apply length_replicate|]. unfold zero_poly.
      apply Forall_replicate. lia. }
    rewrite Hadd by assumption. f_equal.
    transitivity (tabulate (ring_N R) (coef a)); [|rewrite <- Ha; apply tabulate_coef].
    apply tabulate_ext. intros i Hi.
    unfold zero_poly, coef at 2. rewrite nth_lookup, lookup_replicate_2 by lia.
    simpl. rewrite Z.add_0_r. apply Z.mod_small, poly_ok_coef; assumption.
Qed.

Lemma add_group_laws_witness :
  Ring.add demo_ring [1; 2] [3; 6] = Ring.add demo_ring [3; 6] [1; 2]
  ∧ Ring.sub demo_ring [1; 2] [3; 6]
    = (let* minus_b := Ring.neg demo_ring [3; 6] in Ring.add demo_ring [1; 2] minus_b)
  ∧ (let* minus_a := Ring.neg demo_ring [1; 2] in Ring.add demo_ring [1; 2] minus_a)
    = Ok (zero_poly 2)
  ∧ Ring.add demo_ring [1; 2] (zero_poly 2) = Ok [1; 2].
Proof.
  apply (add_group_laws demo_ring [1; 2] [3; 6]);
    try (vm_compute; easy); (split; [reflexivity|repeat constructor; lia]).
Defined.

(** [mod_center] returns, for a polynomial of a ring whose modulus fits a
    signed 64-bit word, representatives in the window [(q // 2 - q, q // 2]]
    that reduce back to it modulo [q]. *)
Theorem mod_center_representatives (R : PolynomialRing) (a : list Z) :
  ring_q R < 2 ^ 63 → poly_ok R a →
  length (Ring.mod_center R a) = ring_N R
  ∧ Forall (fun x => ring_q R / 2 - ring_q R < x <= ring_q R / 2) (Ring.mod_center R a)
  ∧ map (fun x => np_mod x (ring_q R)) (Ring.mod_center R a) = a.
Proof.
  intros Hq63 Hpa. pose proof Hpa as [Ha Hr].
  unfold Ring.mod_center. cbv zeta.
  assert (Hc : ∀ x, 0 <= x < ring_q R →
    (if ring_q R / 2 <? x then wrap64 (x - ring_q R) else x)
    = (if ring_q R / 2 <? x then x - ring_q R else x)).
  { intros x Hx. destruct (Z.ltb_spec (ring_q R / 2) x); [|reflexivity].
    apply wrap64_id. unfold in_int64. lia. }
  split_and!.
  - rewrite length_map. exact Ha.
  - apply List.Forall_map. eapply List.Forall_impl; [|exact Hr].
    intros x Hx. cbv beta in *. rewrite Hc by exact Hx.
    pose proof (Z.div_mod (ring_q R) 2 ltac:(lia)).
    pose proof (Z.mod_pos_bound (ring_q R) 2 ltac:(lia)).
    destruct (Z.ltb_spec (ring_q R / 2) x); lia.
  - rewrite map_map. rewrite <- (map_id a) at 2.
    apply map_ext_in. intros x Hx. rewrite List.Forall_forall in Hr.
    specialize (Hr x Hx). cbv beta in Hr. rewrite Hc by exact Hr.
    rewrite np_mod_nz by lia.
    destruct (Z.ltb_spec (ring_q R / 2) x).
    + replace (x - ring_q R) with (x + (-1) * ring_q R) by lia.
      rewrite Z.mod_add by lia. apply Z.mod_small. lia.
    + apply Z.mod_small. lia.
Qed.

Lemma mod_center_representatives_witness :
  length (Ring.mod_center demo_ring [5; 2]) = ring_N demo_ring
  ∧ Forall (fun x => ring_q demo_ring / 2 - ring_q demo_ring < x <= ring_q demo_ring / 2)
           (Ring.mod_center demo_ring [5; 2])
  ∧ map (fun x => np_mod x (ring_q demo_ring)) (Ring.mod_center demo_ring [5; 2]) = [5; 2].
Proof.
  apply (mod_center_representatives demo_ring [5; 2]);
    try (vm_compute; easy); (split; [reflexivity|repeat constructor; lia]).
Defined.

(** ** Ciphertexts and their noise *)

Lemma engine_ok_set_keys E sk pk : engine_ok E → engine_ok (set_keys E sk pk).
Proof. intros H. exact H. Qed.


Lemma poly_ok_engine E F :
  scheme_ok E → 0 < q E →
  poly_ok (poly_ring E) (tabulate (N E) (fun i => F i mod q E)).
Proof.
  intros [Hring _] Hq. rewrite Hring.
  apply (poly_ok_tabulate_mod (mkRing (N E) (q E))). exact Hq.
Qed.




(** ** Encoding *)

Lemma rmap_astype_cases l :
  (Forall in_int64 l ∧ rmap astype_int64 l = Ok l)
  ∨ (¬ Forall in_int64 l ∧ rmap astype_int64 l = Raise OverflowError).
Proof.
  induction l as [|x l IH]; simpl.
  - left. split; [constructor|reflexivity].
  - destruct (astype_int64 x) as [y|e] eqn:Hx.
    + apply astype_int64_inv in Hx as [-> Hx]. simpl.
      destruct IH as [[Hl ->]|[Hl ->]]; simpl.
      * left. split; [constructor; assumption|reflexivity].
      * right. split; [|reflexivity]. intros H. inversion H; subst. contradiction.
    + simpl. right. split.
      * intros H. inversion H as [|? ? Hin _]; subst.
        rewrite (astype_int64_ok _ Hin) in Hx. discriminate.
      * unfold astype_int64 in Hx.
        destruct ((- 2 ^ 63 <=? x) && (x <? 2 ^ 63)); [discriminate|].
        injection Hx as <-. reflexivity.
Qed.

Lemma coef_replicate_0 n i : coef (replicate n 0) i = 0.
Proof. unfold coef. revert i. induction n; intros [|i]; simpl; auto. Qed.

Lemma coef_take n a i : (i < n)%nat → coef (take n a) i = coef a i.
Proof.
  unfold coef. revert a i. induction n as [|n IH]; intros [|x a] [|i] H;
    simpl; try lia; try reflexivity.
  apply IH. lia.
Qed.

Lemma coef_map0 f a i : f 0 = 0 → coef (map f a) i = f (coef a i).
Proof.
  intros Hf. unfold coef. rewrite <- Hf at 1. apply map_nth.
Qed.

Lemma encode_spec E values :
  t E ≠ 0 → Forall in_int64 values →
  BFV.encode E values
  = Ok (mkPlaintext (tabulate (N E) (fun i => coef values i mod t E))
                    (<["N" := Z.of_nat (N E)]> ∅)).
Proof.
  intros Ht Hv. unfold BFV.encode.
  destruct (rmap_astype_cases values) as [[_ ->]|[H _]]; [|contradiction].
  cbn [rbind]. f_equal. f_equal.
  assert (Hf : np_mod 0 (t E) = 0) by (rewrite np_mod_nz by exact Ht; apply Z.mod_0_l; exact Ht).
  apply list_eq_coef.
  - rewrite length_app, length_map, length_take, length_replicate, length_tabulate. lia.
  - rewrite length_app, length_map, length_take, length_replicate. intros i Hi.
    rewrite coef_tabulate by lia.
    destruct (decide (i < Nat.min (length values) (N E))%nat) as [Hlt|Hge].
    + unfold coef at 1. rewrite app_nth1 by (rewrite length_map, length_take; lia).
      fold (coef (map (fun v => np_mod v (t E))
                      (take (Nat.min (length values) (N E)) values)) i).
      rewrite coef_map0 by exact Hf. rewrite coef_take by exact Hlt.
      apply np_mod_nz, Ht.
    + unfold coef at 1. rewrite app_nth2 by (rewrite length_map, length_take; lia).
      fold (coef (replicate (N E - Nat.min (length values) (N E)) 0)
                 (i - length (map (fun v => np_mod v (t E))
                                  (take (Nat.min (length values) (N E)) values)))).
      rewrite coef_replicate_0, coef_overflow by lia.
      symmetry. apply Z.mod_0_l, Ht.
Qed.

(** [encode] reduces the values modulo [t], truncates to [N] of them and
    pads with zeros: coefficient [i] of the plaintext is [values[i] mod t],
    taking [values[i]] as 0 past the end of the list ([t] nonzero and within
    the signed 64-bit range).  A value outside the signed 64-bit range makes
    it raise [OverflowError]. *)
Theorem encode_reduces_truncates_pads (E : BFVScheme) (values : list Z) :
  t E ≠ 0 ∧ in_int64 (t E) →
  (Forall in_int64 values →
   BFV.encode E values
   = Ok (mkPlaintext (tabulate (N E) (fun i => coef values i mod t E))
                     (<["N" := Z.of_nat (N E)]> ∅)))
  ∧ (¬ Forall in_int64 values → BFV.encode E values = Raise OverflowError).
Proof.
  intros [Ht _]. split.
  - apply encode_spec, Ht.
  - intros Hv. unfold BFV.encode.
    destruct (rmap_astype_cases values) as [[H _]|[_ ->]]; [contradiction|reflexivity].
Qed.

Lemma encode_reduces_truncates_pads_witness :
  (t demo_engine ≠ 0 ∧ in_int64 (t demo_engine))
  ∧ BFV.encode demo_engine [7; -1; 9]
    = Ok (mkPlaintext [3; 3] (<["N" := 2]> ∅))
  ∧ BFV.encode demo_engine [2 ^ 63] = Raise OverflowError.
Proof.
  split; [vm_compute; easy|].
  split.
  - apply (proj1 (encode_reduces_truncates_pads demo_engine [7; -1; 9] ltac:(vm_compute; easy))).
    repeat constructor; vm_compute; easy.
  - apply (proj2 (encode_reduces_truncates_pads demo_engine [2 ^ 63] ltac:(vm_compute; easy))).
    intros H. inversion H as [|? ? [_ Hx] _]. vm_compute in Hx. discriminate.
Defined.

(** Decoding an encoded list gives back its first value modulo [t] (0 for
    the empty list), provided [t - 1 <= q // 2] so that [mod_center] leaves
    the coefficients alone, and [q < 2^63]; on an engine of degree 0 it
    raises [IndexError]. *)
Theorem decode_encode (E : BFVScheme) (values : list Z) :
  scheme_ok E → 0 < t E → t E - 1 <= q E / 2 → q E < 2 ^ 63 →
  Forall in_int64 values →
  ((0 < N E)%nat →
   (let* pt := BFV.encode E values in BFV.decode E pt)
   = Ok (coef values 0 mod t E))
  ∧ (N E = 0%nat →
     (let* pt := BFV.encode E values in BFV.decode E pt) = Raise IndexError).
Proof.
  intros [Hring _] Ht Hq _ Hv.
  rewrite (encode_spec E values) by (lia || assumption). cbn [rbind].
  unfold BFV.decode. cbn [pt_poly]. rewrite Hring. split.
  - intros HN. destruct (N E) as [|n]; [lia|].
    unfold tabulate. cbn [seq map Ring.mod_center ring_q].
    pose proof (Z.mod_pos_bound (coef values 0) (t E) Ht) as Hb.
    destruct (Z.ltb_spec (q E / 2) (coef values 0 mod t E)); [lia|].
    rewrite np_mod_nz by lia. rewrite Z.mod_mod by lia. reflexivity.
  - intros ->. reflexivity.
Qed.

Lemma decode_encode_witness :
  (let* pt := BFV.encode demo_engine [-3; 1] in BFV.decode demo_engine pt) = Ok 1.
Proof.
  apply (proj1 (decode_encode demo_engine [-3; 1] ltac:(vm_compute; easy)
                  ltac:(vm_compute; easy) ltac:(vm_compute; easy)
                  ltac:(vm_compute; easy)
                  ltac:(repeat constructor; vm_compute; easy))).
  simpl. lia.
Defined.

(** ** Sessions: key generation, encryption, subtraction, decryption *)


Lemma centered_eqm t v w : eqm t v w → centered t v = centered t w.
Proof. unfold eqm, centered. intros ->. reflexivity. Qed.

Lemma centered_window t v : 0 < t → t / 2 - t < centered t v <= t / 2.
Proof.
  intros Ht. unfold centered. pose proof (Z.mod_pos_bound v t Ht).
  assert (0 <= t / 2 < t) by (split; [apply Z.div_pos|apply Z.div_lt]; lia).
  generalize dependent (v mod t). generalize dependent (t / 2). intros h Hh r Hr.
  destruct (Z.ltb_spec h r); lia.
Qed.










(** Closed side conditions on concrete engines and draws. *)
Ltac concrete :=
  repeat split;
  try reflexivity; try discriminate; try (simpl; lia);
  try (repeat constructor; vm_compute; easy).


















(** ** Keys *)


Lemma encrypt_poly_internal_spec E s msg a g :
  scheme_ok E → (0 < N E)%nat → 0 < q E <= 2 ^ 62 → 0 <= noise_bound E <= 2 ^ 62 →
  secret_key E = Some s → length s = N E → length msg = N E →
  length a = N E → length g = N E →
  (∀ i, (i < N E)%nat → 0 <= coef msg i < q E) →
  ∃ b, BFV.encrypt_poly_internal E msg a g = Ok (b, a)
       ∧ key_relation E s b a (coef msg) (coef (sample_bounded g (noise_bound E))).
Proof.
  intros Hok HN Hq HB Hsk Hs Hm Ha Hg Hr.
  pose proof Hok as [Hring _].
  unfold BFV.encrypt_poly_internal. rewrite Hsk.
  rewrite (mul_engine_spec E Hok HN Hq a s Ha Hs). cbn [rbind].
  rewrite (add_noise_spec E Hok HN Hq HB) by
    (rewrite ?length_tabulate; try assumption; try reflexivity;
     intros i Hi; rewrite coef_tabulate by assumption; apply Z.mod_pos_bound; lia).
  cbn [rbind]. rewrite Hring.
  rewrite neg_spec; cbn [ring_q]; [|lia|].
  2:{ rewrite length_tabulate. intros i Hi. rewrite coef_tabulate by assumption.
      match goal with |- in_int64 (- (?x mod _)) =>
        pose proof (Z.mod_pos_bound x (q E) ltac:(lia)) end.
      unfold in_int64. lia. }
  rewrite length_tabulate. cbn [rbind].
  rewrite (add_spec _ _ _ (N E)); cbn [ring_q];
    rewrite ?length_tabulate; try assumption; try reflexivity; try lia.
  2:{ intros i Hi. rewrite coef_tabulate by assumption.
      match goal with |- in_int64 (?x mod _ + _) =>
        pose proof (Z.mod_pos_bound x (q E) ltac:(lia)) end.
      specialize (Hr i Hi). unfold in_int64. lia. }
  cbn [rbind]. eexists. split; [reflexivity|].
  split; [apply (poly_ok_engine E); [exact Hok|lia]|].
  split; [exact Ha|].
  intros k Hk. rewrite !coef_tabulate by assumption.
  rewrite !eqm_mod.
  match goal with |- eqm _ ?x ?y => replace x with y by lia end. reflexivity.
Qed.



Lemma generate_relin_key_spec (E : BFVScheme) (s a0 g0 a1 g1 : list Z) :
  scheme_ok E → (0 < N E)%nat → 0 < q E <= 2 ^ 62 → 0 <= noise_bound E <= 2 ^ 62 →
  length s = N E → relin_draws E a0 g0 a1 g1 →
  (secret_key E = Some s →
   ∃ b0 b1,
     BFV.generate_relin_key E a0 g0 a1 g1
     = Ok (set_relin_key E [(b0, a0); (b1, a1)], [(b0, a0); (b1, a1)])
     ∧ key_relation E s b0 a0 (ncoef (N E) (coef s) (coef s))
                    (coef (sample_bounded g0 (noise_bound E)))
     ∧ key_relation E s b1 a1 (fun k => T E * ncoef (N E) (coef s) (coef s) k)
                    (coef (sample_bounded g1 (noise_bound E))))
  ∧ (secret_key E = None →
     BFV.generate_relin_key E a0 g0 a1 g1 = Raise (ValueError "Keys not generated")).
Proof.
  intros Hok HN Hq HB Hs (Ha0 & Hg0 & Ha1 & Hg1). split.
  2:{ intros Hsk. unfold BFV.generate_relin_key. rewrite Hsk. reflexivity. }
  intros Hsk. pose proof Hok as [Hring _].
  unfold BFV.generate_relin_key. rewrite Hsk.
  rewrite (mul_engine_spec E Hok HN Hq s s Hs Hs). cbn [rbind].
  set (s2 := tabulate (N E) (fun k => ncoef (N E) (coef s) (coef s) k mod q E)).
  assert (Hs2 : length s2 = N E) by apply length_tabulate.
  assert (Hs2r : ∀ i, (i < N E)%nat → 0 <= coef s2 i < q E).
  { intros i Hi. unfold s2. rewrite coef_tabulate by assumption.
    apply Z.mod_pos_bound. lia. }
  destruct (encrypt_poly_internal_spec E s s2 a0 g0 Hok HN Hq HB Hsk Hs Hs2 Ha0 Hg0 Hs2r)
    as (b0 & -> & Hp0 & _ & Hk0).
  cbn [rbind]. rewrite Hring.
  rewrite mul_scalar_spec by (cbn [ring_q]; lia). cbn [rbind ring_q]. rewrite Hs2.
  set (s2T := tabulate (N E) (fun i => (coef s2 i * T E) mod q E)).
  assert (Hs2T : length s2T = N E) by apply length_tabulate.
  assert (Hs2Tr : ∀ i, (i < N E)%nat → 0 <= coef s2T i < q E).
  { intros i Hi. unfold s2T. rewrite coef_tabulate by assumption.
    apply Z.mod_pos_bound. lia. }
  destruct (encrypt_poly_internal_spec E s s2T a1 g1 Hok HN Hq HB Hsk Hs Hs2T Ha1 Hg1 Hs2Tr)
    as (b1 & -> & Hp1 & _ & Hk1).
  cbn [rbind]. exists b0, b1. split; [reflexivity|].
  split; (split; [assumption|split; [assumption|]]); intros k Hk.
  - rewrite (Hk0 k Hk). unfold s2. rewrite coef_tabulate by assumption.
    rewrite eqm_mod. reflexivity.
  - rewrite (Hk1 k Hk). unfold s2T, s2. rewrite !coef_tabulate by assumption.
    rewrite !eqm_mod.
    match goal with |- eqm _ ?x ?y => replace x with y by lia end. reflexivity.
Qed.

(** The relinearization key.  With a secret key [s] in place,
    [generate_relin_key] stores two pairs [(b0, a0)], [(b1, a1)] of ring
    polynomials with [b0 + a0*s = s^2 - e0] and [b1 + a1*s = T*s^2 - e1]
    modulo [q], where [e0], [e1] are the clipped Gaussian draws; without a
    secret key it raises [ValueError]. *)
Theorem generate_relin_key_relation (E : BFVScheme) (s a0 g0 a1 g1 : list Z) :
  scheme_ok E → (0 < N E)%nat → 0 < q E <= 2 ^ 62 → 0 <= noise_bound E <= 2 ^ 62 →
  length s = N E → relin_draws E a0 g0 a1 g1 →
  (secret_key E = Some s →
   ∃ b0 b1,
     BFV.generate_relin_key E a0 g0 a1 g1
     = Ok (set_relin_key E [(b0, a0); (b1, a1)], [(b0, a0); (b1, a1)])
     ∧ key_relation E s b0 a0 (ncoef (N E) (coef s) (coef s))
                    (coef (sample_bounded g0 (noise_bound E)))
     ∧ key_relation E s b1 a1 (fun k => T E * ncoef (N E) (coef s) (coef s) k)
                    (coef (sample_bounded g1 (noise_bound E))))
  ∧ (secret_key E = None →
     BFV.generate_relin_key E a0 g0 a1 g1 = Raise (ValueError "Keys not generated")).
Proof. apply generate_relin_key_spec. Qed.

Lemma generate_relin_key_relation_witness :
  ∃ b0 b1,
    BFV.generate_relin_key keyed_engine [3; 4] [1; -1] [7; 2] [0; 2]
    = Ok (set_relin_key keyed_engine [(b0, [3; 4]); (b1, [7; 2])],
          [(b0, [3; 4]); (b1, [7; 2])])
    ∧ key_relation keyed_engine [1; 0] b0 [3; 4]
                   (ncoef (N keyed_engine) (coef [1; 0]) (coef [1; 0]))
                   (coef (sample_bounded [1; -1] (noise_bound keyed_engine)))
    ∧ key_relation keyed_engine [1; 0] b1 [7; 2]
                   (fun k => T keyed_engine
                             * ncoef (N keyed_engine) (coef [1; 0]) (coef [1; 0]) k)
                   (coef (sample_bounded [0; 2] (noise_bound keyed_engine))).
Proof.
  apply (proj1 (generate_relin_key_relation keyed_engine [1; 0] [3; 4] [1; -1] [7; 2] [0; 2]
                  ltac:(concrete) ltac:(concrete) ltac:(concrete) ltac:(concrete)
                  ltac:(concrete) ltac:(concrete))).
  reflexivity.
Defined.
(** ** Relinearization *)






(** ** Construction of the engine *)

Lemma pow2_degree (n : nat) :
  Z.land (Z.of_nat n) (Z.of_nat n - 1) = 0 ↔ n = 0%nat ∨ ∃ k : nat, n = (2 ^ k)%nat.
Proof.
  split.
  - intros H0. destruct (decide (n = 0%nat)) as [|Hpos]; [left; assumption|right].
    apply land_pred_zero in H0; [|lia].
    exists (Z.to_nat (Z.log2 (Z.of_nat n))). apply Nat2Z.inj.
    rewrite Nat2Z.inj_pow, Z2Nat.id by apply Z.log2_nonneg. exact H0.
  - intros [->|[k ->]]; [reflexivity|].
    assert (Hp : 0 < Z.of_nat (2 ^ k)).
    { rewrite Nat2Z.inj_pow. apply Z.pow_pos_nonneg; lia. }
    apply land_pred_zero; [exact Hp|].
    rewrite Nat2Z.inj_pow. simpl (Z.of_nat 2).
    rewrite Z.log2_pow2 by lia. reflexivity.
Qed.

Lemma base_T_brackets_q (b : Z) :
  0 <= b → 2 ^ (b / 2) * 2 ^ (b / 2) <= 2 ^ b <= 2 * (2 ^ (b / 2) * 2 ^ (b / 2)).
Proof.
  intros Hb.
  pose proof (Z.div_mod b 2 ltac:(lia)) as Hdm.
  pose proof (Z.mod_pos_bound b 2 ltac:(lia)) as Hm.
  assert (Hh : 0 <= b / 2) by (apply Z.div_pos; lia).
  rewrite <- Z.pow_add_r by assumption.
  split.
  - apply Z.pow_le_mono_r; lia.
  - replace (2 * 2 ^ (b / 2 + b / 2)) with (2 ^ (b / 2 + b / 2 + 1))
      by (rewrite (Z.pow_add_r 2 _ 1) by lia; lia).
    apply Z.pow_le_mono_r; lia.
Qed.

Lemma BFVScheme_init_fields (n : nat) (tt q_bits sg : Z) :
  ((∃ E, BFVScheme_init n tt q_bits sg = Ok E)
   ↔ 0 <= q_bits ∧ (n = 0%nat ∨ ∃ k : nat, n = (2 ^ k)%nat) ∧ tt ≠ 0)
  ∧ ∀ E, BFVScheme_init n tt q_bits sg = Ok E →
         N E = n ∧ t E = tt ∧ int_sigma E = sg
         ∧ q E = 2 ^ q_bits - 1
         ∧ poly_ring E = mkRing n (q E)
         ∧ delta E = q E / tt
         ∧ T E = 2 ^ (q_bits / 2)
         ∧ T E * T E <= q E + 1 <= 2 * (T E * T E)
         ∧ secret_key E = None ∧ public_key E = None ∧ relin_key E = None
         ∧ n_slots E = (n / 2)%nat
         ∧ (0 < tt → delta E * tt <= q E < delta E * tt + tt).
Proof.
  unfold BFVScheme_init, PolynomialRing_init, py_floordiv.
  destruct (Z.ltb_spec q_bits 0) as [Hneg|Hb].
  { split; [|discriminate]. split; [intros [E HE]; discriminate|lia]. }
  pose proof (pow2_degree n) as Hpow.
  destruct (Z.eqb_spec (Z.land (Z.of_nat n) (Z.of_nat n - 1)) 0) as [H0|Hne];
    cbn [rbind].
  2:{ split; [|discriminate]. split; [intros [E HE]; discriminate|].
      intros (_ & Hn & _). exfalso. apply Hne, Hpow, Hn. }
  destruct (Z.eqb_spec tt 0) as [Ht0|Ht]; cbn [rbind].
  { split; [|discriminate]. split; [intros [E HE]; discriminate|]. tauto. }
  split.
  - split; [intros _|intros _; eexists; reflexivity].
    split_and!; [exact Hb|apply Hpow, H0|exact Ht].
  - intros E [= <-]. cbn. rewrite !Z.shiftl_1_l.
    split_and!; try reflexivity;
      try (pose proof (base_T_brackets_q q_bits Hb); lia).
    intros Hpos. pose proof (Z.div_mod (2 ^ q_bits - 1) tt Ht).
    pose proof (Z.mod_pos_bound (2 ^ q_bits - 1) tt Hpos). lia.
Qed.

(** The constructor of the engine.  [BFVScheme(N, t, q_bits, sigma)]
    succeeds exactly when [q_bits >= 0], [N] is 0 or a power of two and
    [t != 0].  The engine it returns has [q = 2^q_bits - 1], the ring
    [(N, q)], [delta = q // t], the base [T = 2^(q_bits // 2)] with
    [T^2 <= q + 1 <= 2 * T^2], and no keys; for a positive [t],
    [delta * t <= q < delta * t + t]. *)
Theorem BFVScheme_init_establishes (n : nat) (tt q_bits sg : Z) :
  ((∃ E, BFVScheme_init n tt q_bits sg = Ok E)
   ↔ 0 <= q_bits ∧ (n = 0%nat ∨ ∃ k : nat, n = (2 ^ k)%nat) ∧ tt ≠ 0)
  ∧ ∀ E, BFVScheme_init n tt q_bits sg = Ok E →
         N E = n ∧ t E = tt ∧ int_sigma E = sg
         ∧ q E = 2 ^ q_bits - 1
         ∧ poly_ring E = mkRing n (q E)
         ∧ delta E = q E / tt
         ∧ T E = 2 ^ (q_bits / 2)
         ∧ T E * T E <= q E + 1 <= 2 * (T E * T E)
         ∧ secret_key E = None ∧ public_key E = None ∧ relin_key E = None
         ∧ n_slots E = (n / 2)%nat
         ∧ (0 < tt → delta E * tt <= q E < delta E * tt + tt).
Proof. apply BFVScheme_init_fields. Qed.

(** An engine fresh from the constructor lies inside the envelope of the
    correctness theorems as soon as [N >= 1], [0 < t < q], [q_bits <= 62]
    and [0 <= 6 * int(sigma) <= 2^62]; having no keys, its [encrypt],
    [decrypt] and [generate_relin_key] raise [ValueError], and its
    [relinearize] raises [AttributeError] on a size-3 ciphertext. *)
Theorem fresh_engine_has_no_keys (n : nat) (tt q_bits sg : Z) (E : BFVScheme) :
  BFVScheme_init n tt q_bits sg = Ok E →
  ((0 < n)%nat → 0 < tt < 2 ^ q_bits - 1 → q_bits <= 62 → 0 <= 6 * sg <= 2 ^ 62 →
   engine_ok E)
  ∧ (∀ pt u g1 g2, BFV.encrypt E pt u g1 g2 = Raise (ValueError "No Public Key"))
  ∧ (∀ ct, BFV.decrypt E ct = Raise (ValueError "No Secret Key"))
  ∧ (∀ a0 g0 a1 g1,
       BFV.generate_relin_key E a0 g0 a1 g1 = Raise (ValueError "Keys not generated"))
  ∧ (∀ d0 d1 d2 pp,
       BFV.relinearize E (mkCiphertext [d0; d1; d2] pp) = Raise AttributeError).
Proof.
  intros Hinit.
  destruct (proj2 (BFVScheme_init_fields n tt q_bits sg) E Hinit)
    as (HN & Ht & Hsg & Hq & Hring & Hdelta & HT & _ & Hsk & Hpk & Hrk & _).
  split_and!.
  - intros Hn Htt Hb HB. unfold engine_ok, scheme_ok, noise_bound.
    rewrite HN, Ht, Hq, Hsg, Hdelta, Hring, Hq.
    assert (2 ^ q_bits <= 2 ^ 62) by (apply Z.pow_le_mono_r; lia).
    split_and!; try reflexivity; try lia.
  - intros pt u g1 g2. unfold BFV.encrypt. rewrite Hpk. reflexivity.
  - intros ct. unfold BFV.decrypt. rewrite Hsk. reflexivity.
  - intros a0 g0 a1 g1. unfold BFV.generate_relin_key. rewrite Hsk. reflexivity.
  - intros d0 d1 d2 pp. unfold BFV.relinearize.
    rewrite decide_False by (unfold size; simpl; lia).
    cbn [components unpack3 rbind]. rewrite Hrk. reflexivity.
Qed.

Lemma fresh_engine_has_no_keys_witness :
  engine_ok demo_engine
  ∧ BFV.decrypt demo_engine (mkCiphertext [[1; 2]; [3; 4]] ∅)
    = Raise (ValueError "No Secret Key").
Proof.
  pose proof (fresh_engine_has_no_keys 2 4 10 3 demo_engine eq_refl) as (H1 & _ & H3 & _).
  split; [apply H1; concrete|apply H3].
Defined.
Lemma BFVScheme_init_establishes_witness :
  N demo_engine = 2%nat ∧ t demo_engine = 4 ∧ int_sigma demo_engine = 3
  ∧ q demo_engine = 2 ^ 10 - 1
  ∧ poly_ring demo_engine = mkRing 2 (q demo_engine)
  ∧ delta demo_engine = q demo_engine / 4
  ∧ T demo_engine = 2 ^ (10 / 2)
  ∧ T demo_engine * T demo_engine <= q demo_engine + 1
    <= 2 * (T demo_engine * T demo_engine)
  ∧ secret_key demo_engine = None ∧ public_key demo_engine = None
  ∧ relin_key demo_engine = None
  ∧ n_slots demo_engine = (2 / 2)%nat
  ∧ (0 < 4 → delta demo_engine * 4 <= q demo_engine < delta demo_engine * 4 + 4).
Proof.
  apply (proj2 (BFVScheme_init_establishes 2 4 10 3) demo_engine). reflexivity.
Defined.

(** ** Products *)

Lemma multiply_inv E ct1 ct2 p :
  BFV.multiply E ct1 ct2 = Ok p →
  ∃ c10 c11 c20 c21 d0 d1 d2,
    components ct1 = [c10; c11] ∧ components ct2 = [c20; c21]
    ∧ p = mkCiphertext [d0; d1; d2] (ct_params ct1).
Proof.
  unfold BFV.multiply. intros H.
  destruct (components ct1) as [|c10 [|c11 [|x l]]]; try discriminate.
  destruct (components ct2) as [|c20 [|c21 [|y l']]]; try discriminate.
  cbn [unpack2 rbind] in H.
  destruct (BFV.mul_scale E c10 c20) as [d0|]; [|discriminate]. cbn [rbind] in H.
  destruct (BFV.mul_scale E c10 c21) as [x|]; [|discriminate]. cbn [rbind] in H.
  destruct (BFV.mul_scale E c11 c20) as [y|]; [|discriminate]. cbn [rbind] in H.
  destruct (Ring.add (poly_ring E) x y) as [d1|]; [|discriminate]. cbn [rbind] in H.
  destruct (BFV.mul_scale E c11 c21) as [d2|]; [|discriminate]. cbn [rbind] in H.
  injection H as <-. eexists _, _, _, _, _, _, _. split_and!; reflexivity.
Qed.

Lemma relinearize_inv E d0 d1 d2 pp r :
  BFV.relinearize E (mkCiphertext [d0; d1; d2] pp) = Ok r →
  ∃ c0 c1, r = mkCiphertext [c0; c1] pp.
Proof.
  unfold BFV.relinearize. rewrite decide_False by (unfold size; simpl; lia).
  cbn [components unpack3 rbind ct_params].
  destruct (relin_key E) as [keys|]; [|discriminate].
  destruct (keys !! 0%nat) as [[k0_b k0_a]|]; [|discriminate].
  destruct (keys !! 1%nat) as [[k1_b k1_a]|]; [|discriminate].
  intros H.
  repeat match type of H with
         | rbind ?m _ = Ok _ => destruct m; [|discriminate]; cbn [rbind] in H
         end.
  injection H as <-. eexists _, _. reflexivity.
Qed.

(** A product has to be relinearized before it is used again.  Whenever
    [multiply] returns, both operands had exactly two components and the
    product has three, with the parameters of the first operand.  The product
    is rejected with [ValueError] as an operand of [multiply] (on either
    side) and of [homomorphic_sub]; whatever [relinearize] returns for it has
    two components and the same parameters. *)
Theorem product_needs_relinearization (E : BFVScheme) (ct1 ct2 p : Ciphertext) :
  BFV.multiply E ct1 ct2 = Ok p →
  size ct1 = 2%nat ∧ size ct2 = 2%nat ∧ size p = 3%nat
  ∧ ct_params p = ct_params ct1
  ∧ (∀ ct, BFV.multiply E p ct = Raise (ValueError "too many values to unpack"))
  ∧ (∀ ct, size ct = 2%nat →
           BFV.multiply E ct p = Raise (ValueError "too many values to unpack"))
  ∧ (∀ ct, homomorphic_sub E p ct = Raise (ValueError "too many values to unpack"))
  ∧ (∀ r, BFV.relinearize E p = Ok r →
          size r = 2%nat ∧ ct_params r = ct_params p).
Proof.
  intros H.
  destruct (multiply_inv E ct1 ct2 p H)
    as (c10 & c11 & c20 & c21 & d0 & d1 & d2 & H1 & H2 & ->).
  unfold size. rewrite H1, H2. split_and!; try reflexivity.
  - intros [comps pp]. cbn [components] in *. intros Hs.
    destruct comps as [|a [|b [|c l]]]; try discriminate. reflexivity.
  - intros r Hr. apply relinearize_inv in Hr as (c0 & c1 & ->). split; reflexivity.
Qed.

Lemma product_needs_relinearization_witness :
  size (mkCiphertext [[1; 2]; [3; 4]] ∅) = 2%nat
  ∧ size (mkCiphertext [[500; 600]; [700; 800]] ∅) = 2%nat
  ∧ size (mkCiphertext [[1020; 6]; [1015; 24]; [1019; 20]] ∅) = 3%nat
  ∧ ct_params (mkCiphertext [[1020; 6]; [1015; 24]; [1019; 20]] ∅)
    = ct_params (mkCiphertext [[1; 2]; [3; 4]] ∅)
  ∧ (∀ ct, BFV.multiply demo_engine
             (mkCiphertext [[1020; 6]; [1015; 24]; [1019; 20]] ∅) ct
           = Raise (ValueError "too many values to unpack"))
  ∧ (∀ ct, size ct = 2%nat →
           BFV.multiply demo_engine ct
             (mkCiphertext [[1020; 6]; [1015; 24]; [1019; 20]] ∅)
           = Raise (ValueError "too many values to unpack"))
  ∧ (∀ ct, homomorphic_sub demo_engine
             (mkCiphertext [[1020; 6]; [1015; 24]; [1019; 20]] ∅) ct
           = Raise (ValueError "too many values to unpack"))
  ∧ (∀ r, BFV.relinearize demo_engine
            (mkCiphertext [[1020; 6]; [1015; 24]; [1019; 20]] ∅) = Ok r →
          size r = 2%nat
          ∧ ct_params r
            = ct_params (mkCiphertext [[1020; 6]; [1015; 24]; [1019; 20]] ∅)).
Proof.
  apply (product_needs_relinearization demo_engine
           (mkCiphertext [[1; 2]; [3; 4]] ∅)
           (mkCiphertext [[500; 600]; [700; 800]] ∅)).
  vm_compute. reflexivity.
Defined.
(** ** The primality test and the sampler *)

(** The trial division [is_prime] of [_find_ntt_prime], from 3 on.
    Inside the float range, and when the rounded root [int(n**0.5)] is at
    least the integer square root and below [n], it returns [True] exactly
    for the primes; for an odd [n] outside the float range it raises
    [OverflowError]; an even [n] is rejected before any root is taken. *)
Theorem is_prime_decides (fsqrt : Z → Z) (n : Z) :
  3 <= n →
  (n < float_overflow → root_ok fsqrt n →
   ∃ b, is_prime fsqrt n = Ok b ∧ (b = true ↔ Z.prime n))
  ∧ (float_overflow <= n → n mod 2 ≠ 0 → is_prime fsqrt n = Raise OverflowError)
  ∧ (n mod 2 = 0 → is_prime fsqrt n = Ok false).
Proof.
  intros Hn. split_and!.
  - intros Hfl Hroot. exists (trial_prime n).
    split; [apply is_prime_exact; [lia|exact Hroot]|].
    split.
    + apply trial_prime_sound. lia.
    + intros Hp. apply trial_prime_complete; [exact Hp|lia].
  - intros Hfl Hodd. apply is_prime_overflow; assumption.
  - intros Heven. unfold is_prime. rewrite Heven. reflexivity.
Qed.

Lemma is_prime_decides_witness :
  (12289 < float_overflow → root_ok Z.sqrt 12289 →
   ∃ b, is_prime Z.sqrt 12289 = Ok b ∧ (b = true ↔ Z.prime 12289))
  ∧ (float_overflow <= 12289 → 12289 mod 2 ≠ 0 →
     is_prime Z.sqrt 12289 = Raise OverflowError)
  ∧ (12289 mod 2 = 0 → is_prime Z.sqrt 12289 = Ok false).
Proof. apply (is_prime_decides Z.sqrt 12289). lia. Defined.

(** [sample_bounded] clips.  For a bound [>= 0] the result has the length
    of the draw, every entry lies in [[-bound, bound]], entries already in
    that range are kept, and clipping twice is clipping once. *)
Theorem sample_bounded_clips (samples : list Z) (bound : Z) :
  0 <= bound →
  length (sample_bounded samples bound) = length samples
  ∧ Forall (fun x => - bound <= x <= bound) (sample_bounded samples bound)
  ∧ (∀ i, - bound <= coef samples i <= bound →
          coef (sample_bounded samples bound) i = coef samples i)
  ∧ sample_bounded (sample_bounded samples bound) bound = sample_bounded samples bound.
Proof.
  intros Hb. unfold sample_bounded. split_and!.
  - apply length_map.
  - apply List.Forall_map, List.Forall_forall. intros x _. apply clip_range, Hb.
  - intros i Hi. rewrite coef_map0 by (unfold clip; lia). unfold clip. lia.
  - rewrite map_map. apply map_ext. intros x. unfold clip. lia.
Qed.

Lemma sample_bounded_clips_witness :
  length (sample_bounded [25; -3; -40] 18) = length [25; -3; -40]
  ∧ Forall (fun x => - 18 <= x <= 18) (sample_bounded [25; -3; -40] 18)
  ∧ (∀ i, - 18 <= coef [25; -3; -40] i <= 18 →
          coef (sample_bounded [25; -3; -40] 18) i = coef [25; -3; -40] i)
  ∧ sample_bounded (sample_bounded [25; -3; -40] 18) 18
    = sample_bounded [25; -3; -40] 18.
Proof. apply (sample_bounded_clips [25; -3; -40] 18). lia. Defined.

(** ** Strings *)

Lemma utf8_encode_ascii (s : pystr) :
  Forall (fun c => c < 128) s → utf8_encode s = Ok s.
Proof.
  induction 1 as [|c s Hc _ IH]; [reflexivity|].
  cbn [utf8_encode]. unfold utf8_char.
  destruct (Z.ltb_spec c 128); [|lia]. cbn [rbind]. rewrite IH. reflexivity.
Qed.



Lemma ints_to_string_padded (a : list Z) (k : nat) :
  Forall (fun c => 0 < c < 1114112) a →
  ints_to_string (a ++ replicate k 0) = Ok a.
Proof.
  induction 1 as [|c a Hc _ IH].
  - destruct k; reflexivity.
  - cbn [app ints_to_string]. destruct (Z.eqb_spec c 0); [lia|].
    unfold chr. destruct (Z.leb_spec 0 c); [|lia].
    destruct (Z.ltb_spec c 1114112); [|lia]. cbn [andb rbind].
    rewrite IH. reflexivity.
Qed.

Lemma string_to_ints_ascii_spec (s : pystr) (max_len : Z) :
  0 <= max_len → Forall (fun c => c < 128) s →
  string_to_ints s max_len
  = Ok (take (Z.to_nat max_len) s
        ++ replicate (Z.to_nat max_len - length s) 0).
Proof.
  intros Hm Hs. unfold string_to_ints. rewrite (utf8_encode_ascii s Hs).
  cbn [rbind]. unfold py_take. destruct (Z.leb_spec 0 max_len); [|lia].
  do 3 f_equal. lia.
Qed.



(** [ints_to_string] undoes [string_to_ints] on ASCII text.  For an ASCII
    string without NUL and [max_len >= 0],
    [ints_to_string(string_to_ints(s, max_len))] is the first [max_len]
    characters of [s], hence [s] itself when [len(s) <= max_len]. *)
Theorem ints_to_string_string_to_ints (s : pystr) (max_len : Z) :
  0 <= max_len → Forall (fun c => 0 < c < 128) s →
  (let* ints := string_to_ints s max_len in ints_to_string ints)
  = Ok (take (Z.to_nat max_len) s)
  ∧ (Z.of_nat (length s) <= max_len →
     (let* ints := string_to_ints s max_len in ints_to_string ints) = Ok s).
Proof.
  intros Hm Hs.
  assert (H : (let* ints := string_to_ints s max_len in ints_to_string ints)
              = Ok (take (Z.to_nat max_len) s)).
  { rewrite string_to_ints_ascii_spec;
      [|exact Hm|eapply Forall_impl; [exact Hs|]; cbn beta; intros; lia].
    cbn [rbind]. apply ints_to_string_padded, Forall_take.
    eapply Forall_impl; [exact Hs|]. cbn beta. intros; lia. }
  split; [exact H|]. intros Hl. rewrite H, take_ge by lia. reflexivity.
Qed.

Lemma ints_to_string_string_to_ints_witness :
  (let* ints := string_to_ints [117; 64; 109; 46; 99] 12 in ints_to_string ints)
  = Ok [117; 64; 109; 46; 99].
Proof.
  apply (proj2 (ints_to_string_string_to_ints [117; 64; 109; 46; 99] 12 ltac:(lia)
                  ltac:(repeat constructor; lia))).
  simpl. lia.
Defined.


